(** * cleanup-list: orphan packages of a binary-package distribution

    A shallow embedding of [package/cleanup-list.py]: the block-text parser
    [parse_desc], the repository reader [parse_repo], the index merge
    [get_packages] and the orphan classification done by
    [find_unneeded_orphans], [what_requires] and the loop of [main].

    Python values are modelled as follows.
    - [str] is [string]; the text handled here (package names, field
      markers, version operators) is ASCII, and characters above 127 are
      kept as opaque, non-blank, caseless characters.
    - a [dict] with string keys is a [gmap string _], a [set] of names a
      [gset string]; iteration over a set happens in an order that the
      language leaves open, so loops over sets take the order as a list.
    - an exception is a value of [exn] carried by [result]. *)

From Stdlib Require Import Ascii String.
From stdpp Require Import base option list strings gmap fin_maps fin_sets.

Local Open Scope string_scope.

(** ** Exceptions *)

Inductive exn : Type :=
  | KeyError (key : string)
  | IndexError
  | AttributeError.

Inductive result (A : Type) : Type :=
  | Ok (a : A)
  | Raise (e : exn).
Arguments Ok {A} a.
Arguments Raise {A} e.

#[global] Instance result_ret : MRet result := λ A a, Ok a.
#[global] Instance result_bind : MBind result := λ A B k r,
  match r with
  | Ok a => k a
  | Raise e => Raise e
  end.

Definition is_Ok {A} (r : result A) : Prop := ∃ a, r = Ok a.
Definition raises {A} (r : result A) : Prop := ∃ e, r = Raise e.

(** [for x in xs: st = body(st, x)], stopping at the first exception. *)
Fixpoint for_each {S A} (body : S → A → result S) (xs : list A) (st : S)
  : result S :=
  match xs with
  | [] => Ok st
  | x :: xs' => st' ← body st x; for_each body xs' st'
  end.

(** ** Strings *)

Module Str.

(** [str.isspace] on one character of the ASCII range: TAB, LF, VT, FF,
    CR, the four separators FS, GS, RS, US and the space. *)
Definition isspace (c : ascii) : bool :=
  let n := nat_of_ascii c in
  (((9 <=? n) && (n <=? 13)) || ((28 <=? n) && (n <=? 31)) || (n =? 32))%nat.

Fixpoint lstrip (s : string) : string :=
  match s with
  | String c s' => if isspace c then lstrip s' else s
  | EmptyString => EmptyString
  end.

Fixpoint rstrip (s : string) : string :=
  match s with
  | String c s' =>
      match rstrip s' with
      | EmptyString => if isspace c then EmptyString else String c EmptyString
      | t => String c t
      end
  | EmptyString => EmptyString
  end.

(** [s.strip()] *)
Definition strip (s : string) : string := rstrip (lstrip s).

(** Truth value of a string: [bool(s)], false exactly for the empty one. *)
Definition truthy (s : string) : bool :=
  match s with
  | EmptyString => false
  | String _ _ => true
  end.

(** [s.startswith(c)] and [s.endswith(c)] for a one-character [c]. *)
Definition startswith (c : ascii) (s : string) : bool :=
  match s with
  | String d _ => bool_decide (d = c)
  | EmptyString => false
  end.

Fixpoint endswith (c : ascii) (s : string) : bool :=
  match s with
  | EmptyString => false
  | String d EmptyString => bool_decide (d = c)
  | String _ s' => endswith c s'
  end.

(** [s[1:-1]]: drops the first and the last character; empty when [s]
    has fewer than three characters. *)
Definition slice_1_m1 (s : string) : string :=
  String.substring 1 (String.length s - 2) s.

Definition lower_char (c : ascii) : ascii :=
  let n := nat_of_ascii c in
  if ((65 <=? n) && (n <=? 90))%nat then ascii_of_nat (n + 32) else c.

(** [s.lower()] *)
Fixpoint lower (s : string) : string :=
  match s with
  | String c s' => String (lower_char c) (lower s')
  | EmptyString => EmptyString
  end.

(** [c in s] for a one-character [c]. *)
Fixpoint contains (c : ascii) (s : string) : bool :=
  match s with
  | String d s' => bool_decide (d = c) || contains c s'
  | EmptyString => false
  end.

(** [s.split(c)] for a one-character separator: the pieces between the
    occurrences of [c]; never an empty list. *)
Fixpoint split (c : ascii) (s : string) : list string :=
  match s with
  | EmptyString => [EmptyString]
  | String d s' =>
      if bool_decide (d = c) then EmptyString :: split c s'
      else match split c s' with
           | piece :: pieces => String d piece :: pieces
           | [] => [String d EmptyString]
           end
  end.

(** [xs[0]] *)
Definition first {A} (xs : list A) : result A :=
  match xs with
  | x :: _ => Ok x
  | [] => Raise IndexError
  end.

(** [xs.pop()]: the last element (the shortened list is not used again
    by the callers modelled here). *)
Definition pop {A} (xs : list A) : result A :=
  match last xs with
  | Some x => Ok x
  | None => Raise IndexError
  end.

(** [s.split(c)[0]]; total, because [split] never returns [[]]. *)
Definition split_first (c : ascii) (s : string) : string :=
  match split c s with
  | piece :: _ => piece
  | [] => EmptyString
  end.

(** Line iteration of a text stream opened with universal newlines:
    each of LF, CR LF and CR ends a line and is handed over as LF. *)
Definition LF : ascii := "010"%char.
Definition CR : ascii := "013"%char.

Fixpoint readlines_from (acc s : string) : list string :=
  match s with
  | EmptyString => if truthy acc then [acc] else []
  | String c s' =>
      if bool_decide (c = LF) then (acc ++ String LF "") :: readlines_from "" s'
      else if bool_decide (c = CR) then
        match s' with
        | String d s'' =>
            if bool_decide (d = LF)
            then (acc ++ String LF "") :: readlines_from "" s''
            else (acc ++ String LF "") :: readlines_from "" s'
        | EmptyString => [acc ++ String LF ""]
        end
      else readlines_from (acc ++ String c "") s'
  end.

Definition readlines (s : string) : list string := readlines_from "" s.

End Str.

(** ** Block-text parser: [parse_desc] *)

(** The loop state of [parse_desc]: the dictionary [store] and the
    variable [blockname] ([None] until the first marker). *)
Definition desc_state : Type := gmap string (list string) * option string.

Definition is_marker (line : string) : bool :=
  Str.startswith "%" line && Str.endswith "%" line.

Definition marker_name (line : string) : string :=
  Str.lower (Str.slice_1_m1 line).

(** One iteration of [for line in iofile].  [store[blockname].append]
    is an [alter]: the key is present whenever the branch is taken
    (lemma [parse_desc_block_open]). *)
Definition parse_desc_line (st : desc_state) (raw : string) : desc_state :=
  let line := Str.strip raw in
  if negb (Str.truthy line) then st
  else if is_marker line then
    let blockname := marker_name line in
    (<[blockname := []]> st.1, Some blockname)
  else match st.2 with
       | Some blockname =>
           if Str.truthy blockname
           then (alter (λ values, (values ++ [line])%list) blockname st.1, st.2)
           else st
       | None => st
       end.

Definition parse_desc_from (st : desc_state) (iofile : list string) : desc_state :=
  foldl parse_desc_line st iofile.

Definition parse_desc (iofile : list string) : gmap string (list string) :=
  (parse_desc_from (∅, None) iofile).1.

(** The block named by [blockname] is in [store]: the [append] of the
    source never meets a missing key. *)
Definition block_open (st : desc_state) : Prop :=
  ∀ blockname, st.2 = Some blockname → is_Some (st.1 !! blockname).

(** *** The parser as the specification words it

    The lines that count are the stripped, non-blank ones.  A marker opens
    a block whose values are the lines up to the next marker; lines in
    front of the first marker belong to no block; of two blocks with one
    name the later one stays. *)
Definition significant_lines (iofile : list string) : list string :=
  filter (λ line, Str.truthy line = true) (Str.strip <$> iofile).

(** The values of a block: the lines in front of the next marker. *)
Fixpoint values_of (lines : list string) : list string :=
  match lines with
  | [] => []
  | line :: rest => if is_marker line then [] else line :: values_of rest
  end.

Fixpoint blocks_of (lines : list string) : gmap string (list string) :=
  match lines with
  | [] => ∅
  | line :: rest =>
      if is_marker line
      then blocks_of rest ∪ {[ marker_name line := values_of rest ]}
      else blocks_of rest
  end.

Definition parse_desc_spec (iofile : list string) : gmap string (list string) :=
  blocks_of (significant_lines iofile).

(** No marker of the input has an empty name: no line is [%] or [%%]
    once stripped. *)
Definition named_markers (iofile : list string) : Prop :=
  Forall (λ line, is_marker line → Str.truthy (marker_name line))
         (significant_lines iofile).

Definition record_text : string :=
  "%NAME%" ++ String Str.LF "val1" ++ String Str.LF "val2" ++ String Str.LF ""
  ++ String Str.LF "%OTHER%" ++ String Str.LF "val3".

(** What an iteration does with a line that is stripped and not blank. *)
Definition absorb (st : desc_state) (line : string) : desc_state :=
  if is_marker line then (<[marker_name line := []]> st.1, Some (marker_name line))
  else match st.2 with
       | Some blockname =>
           if Str.truthy blockname
           then (alter (λ values, (values ++ [line])%list) blockname st.1, st.2)
           else st
       | None => st
       end.

(** ** Repository archives *)

(** A repository database is a tar archive; of each member the reader
    uses the name, whether it is a directory, and for a regular file its
    text.  (Links and the other member kinds do not occur in a database
    and are not modelled; the text is taken as already decoded.) *)
Module Tar.

Record member : Type := Member {
  name : string;
  isdir : bool;
  content : string;
}.

(** [archive.getmember(path)]: the last member of that name. *)
Fixpoint getmember (archive : list member) (path : string) : result member :=
  match archive with
  | [] => Raise (KeyError path)
  | m :: rest =>
      match getmember rest path with
      | Ok m' => Ok m'
      | Raise e => if bool_decide (name m = path) then Ok m else Raise e
      end
  end.

(** [archive.extractfile(m).read()]: [extractfile] hands back [None]
    for a directory, and reading from it is an [AttributeError]. *)
Definition extractfile (m : member) : result string :=
  if isdir m then Raise AttributeError else Ok (content m).

End Tar.

Module Path.

(** [os.path.join(a, b)] for a relative [b]. *)
Definition join (a b : string) : string :=
  if negb (Str.truthy a) || Str.endswith "/" a then a ++ b
  else a ++ String "/" b.

(** [os.path.basename(p)]: what follows the last slash. *)
Fixpoint basename (p : string) : string :=
  match p with
  | EmptyString => EmptyString
  | String c p' => if Str.contains "/" p then basename p' else p
  end.

End Path.

(** ** Package entities *)

(** The dictionary kept per package.  [repo] and [arch] are always set,
    [pkgbase] and [maintainers] may be missing, and the entries that hold
    sets of names ([depends], [makedepends], [optdepends], [checkdepends]
    and later [required_by]) stay keyed by their field name. *)
Record package : Type := Package {
  repo : string;
  arch : string;
  pkgbase : option string;
  fields : gmap string (gset string);
  maintainers : option (list string);
}.

Definition set_field (key : string) (value : gset string) (p : package) : package :=
  Package (repo p) (arch p) (pkgbase p) (<[key := value]> (fields p)) (maintainers p).

Definition set_maintainers (value : list string) (p : package) : package :=
  Package (repo p) (arch p) (pkgbase p) (fields p) (Some value).

(** [d[key]] *)
Definition getitem {V} (d : gmap string V) (key : string) : result V :=
  match d !! key with
  | Some v => Ok v
  | None => Raise (KeyError key)
  end.

(** [try: body  except KeyError: pass], where [unchanged] is the state
    the handler leaves. *)
Definition except_KeyError {A} (body : result A) (unchanged : A) : result A :=
  match body with
  | Raise (KeyError _) => Ok unchanged
  | other => other
  end.

(** ** Repository reader: [parse_repo] *)

Definition pkgfields : list string :=
  ["depends"; "makedepends"; "optdepends"; "checkdepends"].

(** [getmember], [extractfile], [TextIOWrapper] and [parse_desc] in a row. *)
Definition read_record (repodb : list Tar.member) (path : string)
  : result (gmap string (list string)) :=
  tar ← Tar.getmember repodb path;
  text ← Tar.extractfile tar;
  Ok (parse_desc (Str.readlines text)).

(** [for key in pkgfields: if key in desc: pkg[key] = set(desc[key])] *)
Definition take_fields (desc : gmap string (list string))
    (flds : gmap string (gset string)) : gmap string (gset string) :=
  foldl (λ flds key,
           match desc !! key with
           | Some values => <[key := list_to_set values]> flds
           | None => flds
           end) flds pkgfields.

(** The loop over [pkgfields] that merges the build record: [update] on
    the set that is there, a new set on [KeyError]. *)
Definition merge_fields (depends : gmap string (list string))
    (flds : gmap string (gset string)) : gmap string (gset string) :=
  foldl (λ flds key,
           match depends !! key with
           | Some values =>
               match flds !! key with
               | Some present => <[key := present ∪ list_to_set values]> flds
               | None => <[key := list_to_set values]> flds
               end
           | None => flds
           end) flds pkgfields.

(** The [try] block around the build record of [pkgid]. *)
Definition merge_build_record (repodb : list Tar.member) (pkgid : string)
    (flds : gmap string (gset string)) : result (gmap string (gset string)) :=
  except_KeyError
    (depends ← read_record repodb (Path.join pkgid "depends");
     Ok (merge_fields depends flds))
    flds.

(** remove descriptions from optional dependencies *)
Definition remove_descriptions (flds : gmap string (gset string))
  : gmap string (gset string) :=
  match flds !! "optdepends" with
  | Some optdepends =>
      <["optdepends" := set_map (Str.split_first ":") optdepends]> flds
  | None => flds
  end.

(** [dep.split(ch)[0] if ch in dep else dep] *)
Definition cut_at (ch : ascii) (dep : string) : string :=
  if Str.contains ch dep then Str.split_first ch dep else dep.

Definition constraint_chars : list ascii := ["<"; ">"; "="]%char.

(** The three passes over one entry, and over one set. *)
Definition remove_version (dep : string) : string :=
  foldl (λ dep ch, cut_at ch dep) dep constraint_chars.

Definition remove_versions_of (tmp : gset string) : gset string :=
  foldl (λ tmp ch, set_map (cut_at ch) tmp) tmp constraint_chars.

(** remove version requirements *)
Definition remove_versions (flds : gmap string (gset string))
  : gmap string (gset string) :=
  foldl (λ flds key,
           match flds !! key with
           | Some tmp => <[key := remove_versions_of tmp]> flds
           | None => flds
           end) flds pkgfields.

(** assign empty sets to missing fields *)
Definition fill_missing (flds : gmap string (gset string))
  : gmap string (gset string) :=
  foldl (λ flds key,
           match flds !! key with
           | Some _ => flds
           | None => <[key := ∅]> flds
           end) flds pkgfields.

(** The three steps that follow the reading of the two records. *)
Definition normalize_fields (flds : gmap string (gset string))
  : gmap string (gset string) :=
  fill_missing (remove_versions (remove_descriptions flds)).

(** The body of [for tarinfo in repodb.getmembers()]. *)
Definition parse_member (reponame : string) (repodb : list Tar.member)
    (pkgs : gmap string package) (tarinfo : Tar.member)
  : result (gmap string package) :=
  if Tar.isdir tarinfo then
    let pkgid := Tar.name tarinfo in
    desc ← read_record repodb (Path.join pkgid "desc");
    pkgname ← getitem desc "name" ≫= Str.first;
    pkgarch ← getitem desc "arch" ≫= Str.pop;
    base ← match desc !! "base" with
           | Some values => value ← Str.first values; Ok (Some value)
           | None => Ok None
           end;
    flds ← merge_build_record repodb pkgid (take_fields desc ∅);
    Ok (<[pkgname := Package reponame pkgarch base (normalize_fields flds) None]> pkgs)
  else Ok pkgs.

Definition reponame_of (dbpath : string) : string :=
  Str.split_first "." (Path.basename dbpath).

(** [parse_repo(dbpath)], with the archive found at [dbpath]. *)
Definition parse_repo (dbpath : string) (repodb : list Tar.member)
  : result (gmap string package) :=
  for_each (parse_member (reponame_of dbpath) repodb) repodb ∅.

(** ** Dependency index: [get_packages] *)

Definition repos : list string := ["core"; "extra"; "community"; "multilib"].

(** [fetch url] is the archive the mirror serves at [url]; it is stored
    under [tmpdir] and read from there. *)
Definition get_packages (fetch : string → list Tar.member) (tmpdir mirror : string)
  : result (gmap string package) :=
  for_each (λ pkgs name,
              let url := mirror ++ "/" ++ name ++ "/os/x86_64/" ++ name ++ ".db" in
              let dbpath := tmpdir ++ "/" ++ name ++ ".db" in
              new ← parse_repo dbpath (fetch url);
              Ok (new ∪ pkgs))
           repos ∅.

(** ** Orphan classifier *)

Definition deptypes : list string := ["depends"; "makedepends"; "checkdepends"].

(** The set [required] of [find_unneeded_orphans]: every name found in
    one of the four fields of a package of the index. *)
Definition referenced_names (pkgs : gmap string package) : result (gset string) :=
  for_each (λ required '(pkg, entry),
              for_each (λ required key,
                          deps ← getitem (fields entry) key;
                          Ok (required ∪ deps))
                       pkgfields required)
           (map_to_list pkgs) ∅.

Definition find_unneeded_orphans (pkgs : gmap string package) (orphans : gset string)
  : result (gset string) :=
  required ← referenced_names pkgs;
  Ok (orphans ∖ required).

Definition what_requires (pkgs : gmap string package) (pkgname : string)
  : result (gset string) :=
  for_each (λ required_by '(pkg, entry),
              for_each (λ required_by deptype,
                          deps ← getitem (fields entry) deptype;
                          Ok (if decide (pkgname ∈ deps)
                              then required_by ∪ {[pkg]} else required_by))
                       deptypes required_by)
           (map_to_list pkgs) ∅.

(** What the loop of [main] works on: the index, annotated in place, the
    set [unneeded], and for each orphan still required its [by-pkg]
    dictionary from requirer to maintainers. *)
Record classification : Type := Classification {
  packages : gmap string package;
  unneeded : gset string;
  required_orphans : gmap string (gmap string (list string));
}.

Section classifier.

(** The maintainer service, and the order in which a set hands out its
    elements. *)
Variable get_maintainers : string → string → string → list string.
Variable iter : gset string → list string.

(** The body of [for pkg in packages[orphan]["required_by"]]. *)
Definition record_maintainers
    (st : gmap string package * gmap string (list string)) (pkg : string)
  : result (gmap string package * gmap string (list string)) :=
  entry ← getitem st.1 pkg;
  match maintainers entry with
  | None =>
      let found := get_maintainers (repo entry) (arch entry) pkg in
      Ok (<[pkg := set_maintainers found entry]> st.1, <[pkg := found]> st.2)
  | Some known => Ok (st.1, <[pkg := known]> st.2)
  end.

(** The body of [for orphan in archweb_orphans - unneeded]. *)
Definition classify_orphan (archweb_orphans : gset string)
    (st : classification) (orphan : string) : result classification :=
  required_by ← what_requires (packages st) orphan;
  entry ← getitem (packages st) orphan;
  let annotated := <[orphan := set_field "required_by" required_by entry]> (packages st) in
  if decide (required_by ⊆ archweb_orphans) then
    Ok (Classification annotated (unneeded st ∪ {[orphan]}) (required_orphans st))
  else
    found ← for_each record_maintainers (iter required_by) (annotated, ∅);
    Ok (Classification found.1 (unneeded st) (<[orphan := found.2]> (required_orphans st))).

(** [main], from the call of [find_unneeded_orphans] to the end of the
    loop: the set [unneeded] and the dictionary [required_orphans]. *)
Definition classify_orphans (pkgs : gmap string package) (archweb_orphans : gset string)
  : result (gset string * gmap string (gmap string (list string))) :=
  initial ← find_unneeded_orphans pkgs archweb_orphans;
  st ← for_each (classify_orphan archweb_orphans)
                (iter (archweb_orphans ∖ initial))
                (Classification pkgs initial ∅);
  Ok (unneeded st, required_orphans st).

End classifier.

(** A set hands out each of its elements once. *)
Definition iteration_order (iter : gset string → list string) : Prop :=
  ∀ X, iter X ≡ₚ elements X.

(** The shape shared by [find_unneeded_orphans] and [what_requires]: for
    every package and every field of [keys], [g] says what the field adds
    to the set being built. *)
Definition gather_entry (keys : list string) (g : string → gset string → gset string)
    (pkg : string) (entry : package) (acc : gset string) : result (gset string) :=
  for_each (λ acc key,
              deps ← getitem (fields entry) key;
              Ok (acc ∪ g pkg deps))
           keys acc.

Definition gather (keys : list string) (g : string → gset string → gset string)
    (entries : list (string * package)) (acc : gset string) : result (gset string) :=
  for_each (λ acc '(pkg, entry), gather_entry keys g pkg entry acc) entries acc.

(** *** The vocabulary of the classifier *)

(** [dep] is named in one of the fields [keys] of the package [pkg]. *)
Definition names_in (keys : list string) (pkgs : gmap string package)
    (pkg dep : string) : Prop :=
  ∃ entry key deps,
    pkgs !! pkg = Some entry ∧ key ∈ keys ∧ fields entry !! key = Some deps ∧ dep ∈ deps.

(** Referenced as any kind of dependency; required by a hard dependency. *)
Definition references (pkgs : gmap string package) (pkg dep : string) : Prop :=
  names_in pkgfields pkgs pkg dep.
Definition hard_requires (pkgs : gmap string package) (pkg dep : string) : Prop :=
  names_in deptypes pkgs pkg dep.

Definition optionally_requires (pkgs : gmap string package) (pkg dep : string) : Prop :=
  names_in ["optdepends"] pkgs pkg dep.

(** The packages that name [dep] in some field of [keys]. *)
Definition naming (keys : list string) (pkgs : gmap string package) (dep : string)
  : result (gset string) :=
  gather keys (λ pkg deps, if decide (dep ∈ deps) then {[pkg]} else ∅)
         (map_to_list pkgs) ∅.

(** Every package of the index has its four dependency fields. *)
Definition fields_present (pkgs : gmap string package) : Prop :=
  ∀ pkg entry key,
    pkgs !! pkg = Some entry → key ∈ pkgfields → is_Some (fields entry !! key).

(** Every orphan that some package references is in the index. *)
Definition orphans_indexed (pkgs : gmap string package) (orphans : gset string) : Prop :=
  ∀ orphan pkg, orphan ∈ orphans → references pkgs pkg orphan → is_Some (pkgs !! orphan).

(** A package as [parse_repo] leaves it. *)
Definition plain_package (depends makedepends optdepends checkdepends : list string) : package :=
  Package "core" "x86_64" None
    (<["depends" := list_to_set depends]>
       (<["makedepends" := list_to_set makedepends]>
          (<["optdepends" := list_to_set optdepends]>
             (<["checkdepends" := list_to_set checkdepends]> ∅))))
    None.

(** *** The vocabulary of normalization *)

(** The part of [s] in front of its first character that satisfies
    [stop]; all of [s] when there is none. *)
Fixpoint before (stop : ascii → bool) (s : string) : string :=
  match s with
  | EmptyString => EmptyString
  | String c s' => if stop c then EmptyString else String c (before stop s')
  end.

(** Some character of [s] satisfies [stop]. *)
Fixpoint has (stop : ascii → bool) (s : string) : bool :=
  match s with
  | EmptyString => false
  | String c s' => stop c || has stop s'
  end.

Definition is_char (c d : ascii) : bool := bool_decide (d = c).
Definition is_constraint (c : ascii) : bool := bool_decide (c ∈ constraint_chars).

(** The shape shared by the loops over [pkgfields]: each key is looked
    up and, when [h] says so, set to a new value. *)
Definition update_keys {V} (h : string → option V → option V) (keys : list string)
    (flds : gmap string V) : gmap string V :=
  foldl (λ flds key,
           match h key (flds !! key) with
           | Some v => <[key := v]> flds
           | None => flds
           end) flds keys.

(** A directory of the archive whose metadata record can be read and
    has what the reader indexes without a test: a name, an architecture,
    and a value under [%BASE%] when that block is there. *)
Definition has_metadata (repodb : list Tar.member) (tarinfo : Tar.member) : Prop :=
  ∃ desc pkgname pkgarch,
    read_record repodb (Path.join (Tar.name tarinfo) "desc") = Ok desc ∧
    getitem desc "name" ≫= Str.first = Ok pkgname ∧
    getitem desc "arch" ≫= Str.pop = Ok pkgarch ∧
    desc !! "base" ≠ Some [].

(** The build record of a directory is missing, or it is a regular file. *)
Definition no_build_record (repodb : list Tar.member) (tarinfo : Tar.member) : Prop :=
  Tar.getmember repodb (Path.join (Tar.name tarinfo) "depends")
  = Raise (KeyError (Path.join (Tar.name tarinfo) "depends")).
Definition plain_build_record (repodb : list Tar.member) (tarinfo : Tar.member) : Prop :=
  ∃ tar, Tar.getmember repodb (Path.join (Tar.name tarinfo) "depends") = Ok tar
         ∧ Tar.isdir tar = false.

(** The package stored for a directory whose metadata record is [desc]
    and which has no build record. *)
Definition described_package (reponame : string) (desc : gmap string (list string))
    (pkgarch : string) : package :=
  Package reponame pkgarch (desc !! "base" ≫= head)
          (normalize_fields (take_fields desc ∅)) None.

(** *** Sample archives *)

Definition text_of (lines : list string) : string :=
  String.concat (String Str.LF "") lines.

(** Two packages; the second has a build record next to its metadata. *)
Definition sample_db : list Tar.member :=
  [ Tar.Member "foo-1.0-1" true "";
    Tar.Member "foo-1.0-1/desc" false
      (text_of ["%NAME%"; "foo"; ""; "%ARCH%"; "x86_64"; "";
                "%DEPENDS%"; "glibc>=2.30"; "";
                "%OPTDEPENDS%"; "bar: for the bar plugin"; ""]);
    Tar.Member "bar-2-1" true "";
    Tar.Member "bar-2-1/desc" false
      (text_of ["%NAME%"; "bar"; ""; "%BASE%"; "barbase"; ""; "%ARCH%"; "any"; ""]);
    Tar.Member "bar-2-1/depends" false
      (text_of ["%MAKEDEPENDS%"; "foo=1.0"; ""]) ].

Definition sample_pkgs : gmap string package :=
  <["foo" := Package "core" "x86_64" None
               (<["depends" := {["glibc"]}]>
                  (<["makedepends" := ∅]>
                     (<["optdepends" := {["bar"]}]>
                        (<["checkdepends" := ∅]> ∅)))) None]>
    (<["bar" := Package "core" "any" (Some "barbase")
                  (<["depends" := ∅]>
                     (<["makedepends" := {["foo"]}]>
                        (<["optdepends" := ∅]>
                           (<["checkdepends" := ∅]> ∅)))) None]> ∅).

(** A directory without metadata record. *)
Definition broken_db : list Tar.member :=
  [ Tar.Member "foo-1.0-1" true "";
    Tar.Member "foo-1.0-1/depends" false (text_of ["%MAKEDEPENDS%"; "gcc"; ""]) ].

(** *** The vocabulary of the loop of [main] *)

(** Every hard requirer of [orphan] is an orphan; some hard requirer of
    [orphan] is not. *)
Definition orphaned_requirers (pkgs : gmap string package) (orphans : gset string)
    (orphan : string) : Prop :=
  ∀ pkg, hard_requires pkgs pkg orphan → pkg ∈ orphans.
Definition maintained_requirer (pkgs : gmap string package) (orphans : gset string)
    (orphan : string) : Prop :=
  ∃ pkg, hard_requires pkgs pkg orphan ∧ pkg ∉ orphans.

(** The maintainers reported for [pkg]: those already noted on its entry,
    else those the service gives. *)
Definition known_maintainers (get_maintainers : string → string → string → list string)
    (pkg : string) (entry : package) : list string :=
  from_option id (get_maintainers (repo entry) (arch entry) pkg) (maintainers entry).

(** [by_pkg] has exactly the hard requirers of [orphan], each with its
    maintainers. *)
Definition pulled_in_by (get_maintainers : string → string → string → list string)
    (pkgs : gmap string package) (orphan : string)
    (by_pkg : gmap string (list string)) : Prop :=
  ∀ pkg found,
    by_pkg !! pkg = Some found ↔
    hard_requires pkgs pkg orphan
    ∧ ∃ entry, pkgs !! pkg = Some entry
               ∧ found = known_maintainers get_maintainers pkg entry.

(** The annotated index [pkgs'] still is the index [pkgs]: same packages,
    same dependency fields, same maintainers to report. *)
Definition agrees (get_maintainers : string → string → string → list string)
    (pkgs pkgs' : gmap string package) : Prop :=
  ∀ pkg,
    match pkgs !! pkg, pkgs' !! pkg with
    | Some entry, Some entry' =>
        (∀ key, key ∈ pkgfields → fields entry !! key = fields entry' !! key)
        ∧ known_maintainers get_maintainers pkg entry
          = known_maintainers get_maintainers pkg entry'
    | None, None => True
    | _, _ => False
    end.

(** *** A sample index *)

(** [a] is maintained and needs [b], with [o] as an option; [b] needs
    [w] and [y] needs [x]; the orphans are [b], [o], [w], [x], [y] and
    [z], which is in no repository. *)
Definition demo_pkgs : gmap string package :=
  <["a" := Package "core" "x86_64" None
             (<["depends" := {["b"]}]>
                (<["makedepends" := ∅]>
                   (<["optdepends" := {["o"]}]>
                      (<["checkdepends" := ∅]> ∅)))) None]>
    (<["b" := plain_package ["w"] [] [] []]>
       (<["o" := plain_package [] [] [] []]>
          (<["w" := plain_package [] [] [] []]>
             (<["x" := plain_package [] [] [] []]>
                (<["y" := plain_package [] ["x"] [] []]> ∅))))).

Definition demo_orphans : gset string := {["b"; "o"; "w"; "x"; "y"; "z"]}.

Definition demo_maintainers (repo arch pkgname : string) : list string :=
  ["maintainer of " ++ pkgname].

(** [a] needs [b], and [b] is an orphan that no repository has. *)
Definition dangling_pkgs : gmap string package :=
  <["a" := plain_package ["b"] [] [] []]> ∅.

Definition dangling_orphans : gset string := {["b"]}.

(** [a] needs [b], an orphan that no repository has, and has the orphan
    [o] as an option. *)
Definition optional_pkgs : gmap string package :=
  <["a" := plain_package ["b"] [] ["o"] []]>
    (<["o" := plain_package [] [] [] []]> ∅).

Definition optional_orphans : gset string := {["b"; "o"]}.

(** [a] needs [b], an orphan that no repository has; the orphan [y]
    needs the orphan [x] to be built. *)
Definition chain_pkgs : gmap string package :=
  <["a" := plain_package ["b"] [] [] []]>
    (<["x" := plain_package [] [] [] []]>
       (<["y" := plain_package [] ["x"] [] []]> ∅)).

Definition chain_orphans : gset string := {["b"; "x"; "y"]}.

(** * Properties of the block-text parser *)

(** Closes a decidable goal about concrete data by running its decision
    procedure. *)
Ltac by_evaluation :=
  refine (bool_decide_unpack _ _); vm_compute; exact I.

Section parse_desc_facts.

Lemma parse_desc_line_absorb st raw :
  parse_desc_line st raw =
    if Str.truthy (Str.strip raw) then absorb st (Str.strip raw) else st.
Proof. unfold parse_desc_line, absorb. by destruct (Str.truthy _). Qed.

Lemma parse_desc_from_significant st iofile :
  parse_desc_from st iofile = foldl absorb st (significant_lines iofile).
Proof.
  unfold parse_desc_from, significant_lines.
  revert st. induction iofile as [|raw iofile IH]; intros st; [done|].
  cbn [foldl fmap list_fmap]. rewrite parse_desc_line_absorb, IH.
  rewrite filter_cons. destruct (Str.truthy (Str.strip raw)) eqn:E.
  - by rewrite decide_True.
  - by rewrite decide_False.
Qed.

Lemma parse_desc_block_open st iofile :
  block_open st → block_open (parse_desc_from st iofile).
Proof.
  unfold parse_desc_from. revert st.
  induction iofile as [|raw iofile IH]; intros st Hst; [done|].
  cbn [foldl]. apply IH. rewrite parse_desc_line_absorb.
  destruct (Str.truthy _); [|done]. unfold absorb.
  destruct (is_marker _).
  - intros b [= <-]. cbn. rewrite lookup_insert_eq. eauto.
  - destruct st as [store [b|]]; cbn in *; [|done].
    destruct (Str.truthy b); [|done].
    intros b' [= <-]. destruct (Hst b eq_refl) as [vs Hvs]. cbn in *.
    rewrite lookup_alter_eq, Hvs. cbn. eauto.
Qed.

Lemma insert_after_alter {V} (f : V → V) (k : string) (v : V) (m : gmap string V) :
  <[k := v]> (alter f k m) = <[k := v]> m.
Proof.
  apply map_eq. intros j. destruct (decide (k = j)) as [->|Hne].
  - by rewrite !lookup_insert_eq.
  - by rewrite !lookup_insert_ne, lookup_alter_ne.
Qed.

Lemma absorb_marker st line :
  is_marker line = true →
  absorb st line = (<[marker_name line := []]> st.1, Some (marker_name line)).
Proof. unfold absorb. by intros ->. Qed.

Lemma absorb_value st line :
  is_marker line = false →
  absorb st line =
    match st.2 with
    | Some blockname =>
        if Str.truthy blockname
        then (alter (λ values, (values ++ [line])%list) blockname st.1, st.2)
        else st
    | None => st
    end.
Proof. unfold absorb. by intros ->. Qed.

(** The loop, started inside an open block with a non-empty name or in
    front of the first marker. *)
Lemma absorb_blocks lines :
  Forall (λ line, is_marker line → Str.truthy (marker_name line)) lines →
  (∀ store, (foldl absorb (store, None) lines).1 = blocks_of lines ∪ store) ∧
  (∀ store b vs,
      Str.truthy b → store !! b = Some vs →
      (foldl absorb (store, Some b) lines).1
      = blocks_of lines ∪ <[b := (vs ++ values_of lines)%list]> store).
Proof.
  induction 1 as [|line lines Hline _ [IHnone IHsome]].
  - split; intros store; [cbn; by rewrite (left_id_L ∅ (∪))|].
    intros b vs _ Hb. cbn. rewrite (left_id_L ∅ (∪)), app_nil_r.
    by rewrite insert_id.
  - assert (∀ st, foldl absorb st (line :: lines) = foldl absorb (absorb st line) lines)
      as Hcons by done.
    split.
    + intros store. rewrite Hcons. cbn [blocks_of].
      destruct (is_marker line) eqn:Hm.
      * rewrite (absorb_marker _ _ Hm). cbn [fst].
        rewrite (IHsome _ _ []); [|by apply Hline|apply lookup_insert_eq].
        cbn [app]. rewrite insert_insert_eq, insert_union_singleton_l.
        by rewrite (assoc_L (∪)).
      * rewrite (absorb_value _ _ Hm). apply IHnone.
    + intros store b vs Hb Hvs. rewrite Hcons. cbn [blocks_of values_of].
      destruct (is_marker line) eqn:Hm.
      * rewrite (absorb_marker _ _ Hm). cbn [fst].
        rewrite (IHsome _ _ []); [|by apply Hline|apply lookup_insert_eq].
        cbn [app]. rewrite insert_insert_eq, app_nil_r.
        rewrite (insert_id store b vs Hvs), insert_union_singleton_l.
        by rewrite (assoc_L (∪)).
      * rewrite (absorb_value _ _ Hm). cbn [fst snd].
        assert (Str.truthy b = true) as -> by by destruct (Str.truthy b).
        rewrite (IHsome _ _ (vs ++ [line])%list Hb).
        -- by rewrite insert_after_alter, <-(assoc_L app).
        -- by rewrite lookup_alter_eq, Hvs.
Qed.

End parse_desc_facts.

(** C7, as amended: for every sequence of input lines whose markers all
    have a non-empty name, [parse_desc] returns the mapping the text
    describes: a marker line opens the block keyed by its lowercased name,
    the non-blank lines that follow, up to the next marker, are its values
    in order, blank lines are skipped without closing the block, and the
    lines in front of the first marker are dropped. *)
Theorem parse_desc_blocks (iofile : list string) :
  named_markers iofile → parse_desc iofile = parse_desc_spec iofile.
Proof.
  intros Hnamed. unfold parse_desc, parse_desc_spec.
  rewrite parse_desc_from_significant.
  destruct (absorb_blocks _ Hnamed) as [-> _]. apply (right_id_L ∅ (∪)).
Qed.

(** The record of the specification, parsed: two blocks, the blank line
    between [val2] and the second marker left out. *)
Lemma parse_desc_blocks_record :
  named_markers (Str.readlines record_text) ∧
  parse_desc (Str.readlines record_text)
  = {[ "name" := ["val1"; "val2"]; "other" := ["val3"] ]}.
Proof.
  assert (named_markers (Str.readlines record_text)) as Hnamed.
  { by_evaluation. }
  split; [exact Hnamed|].
  rewrite (parse_desc_blocks _ Hnamed). by_evaluation.
Defined.

(** C7, as stated, fails after a marker with an empty name: the block is
    opened, and the lines after it are dropped, because the empty name
    counts as false in the test that guards [append]. *)
Lemma parse_desc_empty_marker :
  parse_desc ["%%"; "v"] = {[ "" := [] ]} ∧
  parse_desc_spec ["%%"; "v"] = {[ "" := ["v"] ]} ∧
  parse_desc ["%%"; "v"] ≠ parse_desc_spec ["%%"; "v"].
Proof.
  split_and!; by_evaluation.
Qed.

(** * Properties of normalization *)

Section before_facts.

Implicit Types (stop : ascii → bool) (s : string) (c : ascii).

(** [before] is what its name says: the prefix is free of stops and
    either is all of [s] or is followed by a stop. *)
Lemma before_free stop s : has stop (before stop s) = false.
Proof.
  induction s as [|c s IH]; [done|]. cbn.
  destruct (stop c) eqn:E; [done|]. cbn. by rewrite E.
Qed.

Lemma before_all stop s : has stop s = false → before stop s = s.
Proof.
  induction s as [|c s IH]; [done|]. cbn.
  destruct (stop c); [done|]. cbn. intros Hs. by rewrite IH.
Qed.

Lemma before_cut stop s :
  has stop s = true → ∃ c rest, stop c = true ∧ s = before stop s ++ String c rest.
Proof.
  induction s as [|c s IH]; [done|]. cbn.
  destruct (stop c) eqn:E.
  - intros _. by exists c, s.
  - cbn. intros (d & rest & Hd & Hs)%IH. exists d, rest. split; [done|].
    change (String c s = String c (before stop s ++ String d rest)). by f_equal.
Qed.

Lemma before_before stop1 stop2 s :
  before stop2 (before stop1 s) = before (λ c, stop1 c || stop2 c) s.
Proof.
  induction s as [|c s IH]; [done|]. cbn.
  destruct (stop1 c); [done|]. cbn. destruct (stop2 c); [done|]. by rewrite IH.
Qed.

Lemma before_ext stop1 stop2 s :
  (∀ c, stop1 c = stop2 c) → before stop1 s = before stop2 s.
Proof.
  intros Hext. induction s as [|c s IH]; [done|]. cbn. by rewrite Hext, IH.
Qed.

Lemma contains_has c s : Str.contains c s = has (is_char c) s.
Proof. induction s as [|d s IH]; [done|]. cbn. by rewrite IH. Qed.

Lemma split_nonempty c s : Str.split c s ≠ [].
Proof.
  induction s as [|d s IH]; [done|]. cbn.
  destruct (bool_decide _); [done|]. by destruct (Str.split c s).
Qed.

Lemma split_first_before c s : Str.split_first c s = before (is_char c) s.
Proof.
  unfold Str.split_first. induction s as [|d s IH]; [done|]. cbn.
  unfold is_char at 1. destruct (bool_decide (d = c)); [done|].
  pose proof (split_nonempty c s). destruct (Str.split c s); [done|].
  by rewrite IH.
Qed.

Lemma cut_at_before c s : cut_at c s = before (is_char c) s.
Proof.
  unfold cut_at. rewrite contains_has, split_first_before.
  destruct (has _ s) eqn:E; [done|]. by rewrite before_all.
Qed.

Lemma remove_version_before dep : remove_version dep = before is_constraint dep.
Proof.
  unfold remove_version. cbn. rewrite !cut_at_before, !before_before.
  apply before_ext. intros c. unfold is_char, is_constraint, constraint_chars.
  rewrite !bool_decide_decide.
  destruct (decide (c = "<"%char)) as [->|?]; [done|].
  destruct (decide (c = ">"%char)) as [->|?]; [done|].
  destruct (decide (c = "="%char)) as [->|?]; [done|].
  cbn. rewrite decide_False; [done|].
  rewrite !elem_of_cons, elem_of_nil. tauto.
Qed.

End before_facts.

Section set_map_facts.

Lemma set_map_set_map (f g : string → string) (X : gset string) :
  set_map (C:=gset string) (D:=gset string) g
    (set_map (C:=gset string) (D:=gset string) f X)
  = set_map (C:=gset string) (D:=gset string) (g ∘ f) X.
Proof.
  apply set_eq. intros x. rewrite !elem_of_map. split.
  - intros (y & -> & (z & -> & Hz)%elem_of_map). by exists z.
  - intros (z & -> & Hz). exists (f z). split; [done|].
    apply elem_of_map. by exists z.
Qed.

Lemma remove_versions_of_map (tmp : gset string) :
  remove_versions_of tmp = set_map remove_version tmp.
Proof. unfold remove_versions_of. cbn. by rewrite !set_map_set_map. Qed.

End set_map_facts.

(** * Properties of the repository reader *)

Section loops.

Context {S A : Type}.
Implicit Types (body : S → A → result S) (xs : list A) (st : S).

Lemma for_each_raises body xs x st :
  x ∈ xs → (∀ st', raises (body st' x)) → raises (for_each body xs st).
Proof.
  intros Hx Hbody. revert st.
  induction xs as [|y xs IH]; intros st; [by apply elem_of_nil in Hx|].
  cbn. apply elem_of_cons in Hx as [<-|Hx].
  - destruct (Hbody st) as [e ->]. by exists e.
  - destruct (body st y) as [st'|e]; cbn; [by apply IH|by exists e].
Qed.

Lemma for_each_returns body xs st :
  (∀ x st', x ∈ xs → is_Ok (body st' x)) → is_Ok (for_each body xs st).
Proof.
  revert st. induction xs as [|y xs IH]; intros st Hbody; [by exists st|].
  cbn. destruct (Hbody y st) as [st' ->]; [by left|]. cbn.
  apply IH. intros x st'' Hx. apply Hbody. by right.
Qed.

(** An invariant of the loop body holds of the final state. *)
Lemma for_each_invariant (P : S → Prop) body xs st st' :
  (∀ x st1 st2, x ∈ xs → P st1 → body st1 x = Ok st2 → P st2) →
  P st → for_each body xs st = Ok st' → P st'.
Proof.
  revert st. induction xs as [|y xs IH]; intros st Hbody Hst; cbn.
  - by intros [= <-].
  - destruct (body st y) as [st1|e] eqn:E; cbn; [|done].
    apply IH; [|by eapply Hbody; [left| |]].
    intros x st2 st3 Hx. apply Hbody. by right.
Qed.

End loops.

Lemma foldl_ext {A B} (f g : A → B → A) (l : list B) (a : A) :
  (∀ a x, f a x = g a x) → foldl f a l = foldl g a l.
Proof. intros Hfg. revert a. induction l as [|x l IH]; intros a; cbn; [done|]. by rewrite Hfg, IH. Qed.

Section field_loops.

Context {V : Type}.
Implicit Types (h : string → option V → option V) (flds : gmap string V).

Lemma lookup_update_keys h keys flds k :
  NoDup keys →
  update_keys h keys flds !! k =
    if decide (k ∈ keys)
    then from_option Some (flds !! k) (h k (flds !! k))
    else flds !! k.
Proof.
  intros Hkeys. revert flds.
  induction Hkeys as [|key keys Hkey _ IH]; intros flds.
  - cbn. by rewrite decide_False by apply not_elem_of_nil.
  - change (update_keys h (key :: keys) flds)
      with (update_keys h keys (match h key (flds !! key) with
                                | Some v => <[key := v]> flds
                                | None => flds
                                end)).
    rewrite IH. destruct (decide (k = key)) as [->|Hne].
    + rewrite decide_False by done. rewrite decide_True by left.
      destruct (h key (flds !! key)); [by rewrite lookup_insert_eq|done].
    + assert ((match h key (flds !! key) with
               | Some v => <[key := v]> flds
               | None => flds
               end) !! k = flds !! k) as ->.
      { destruct (h key (flds !! key)); [by rewrite lookup_insert_ne|done]. }
      destruct (decide (k ∈ keys)).
      * by rewrite decide_True by by right.
      * rewrite decide_False; [done|]. by intros [?|?]%elem_of_cons.
Qed.

End field_loops.

Section normalization.

Implicit Types (flds : gmap string (gset string)) (key : string).

Lemma NoDup_pkgfields : NoDup pkgfields.
Proof. by_evaluation. Qed.

Lemma take_fields_keys desc flds :
  take_fields desc flds
  = update_keys (λ key _, list_to_set <$> desc !! key) pkgfields flds.
Proof. apply foldl_ext. intros a x. by destruct (desc !! x). Qed.

Lemma merge_fields_keys depends flds :
  merge_fields depends flds
  = update_keys (λ key old,
                   (λ values, from_option (λ present, present ∪ list_to_set values)
                                          (list_to_set values) old)
                     <$> depends !! key) pkgfields flds.
Proof. apply foldl_ext. intros a x. destruct (depends !! x); [|done]. by destruct (a !! x). Qed.

Lemma remove_versions_keys flds :
  remove_versions flds = update_keys (λ _ old, remove_versions_of <$> old) pkgfields flds.
Proof. apply foldl_ext. intros a x. by destruct (a !! x). Qed.

Lemma fill_missing_keys flds :
  fill_missing flds
  = update_keys (λ _ old, match old with Some _ => None | None => Some ∅ end)
                pkgfields flds.
Proof. apply foldl_ext. intros a x. by destruct (a !! x). Qed.

Lemma lookup_remove_versions flds key :
  remove_versions flds !! key =
    if decide (key ∈ pkgfields) then remove_versions_of <$> flds !! key else flds !! key.
Proof.
  rewrite remove_versions_keys, lookup_update_keys by apply NoDup_pkgfields.
  case_decide; [|done]. by destruct (flds !! key).
Qed.

Lemma lookup_fill_missing flds key :
  fill_missing flds !! key =
    if decide (key ∈ pkgfields) then Some (default ∅ (flds !! key)) else flds !! key.
Proof.
  rewrite fill_missing_keys, lookup_update_keys by apply NoDup_pkgfields.
  case_decide; [|done]. by destruct (flds !! key).
Qed.

(** A build record without blocks adds nothing. *)
Lemma merge_fields_empty flds : merge_fields ∅ flds = flds.
Proof. done. Qed.

Lemma lookup_remove_descriptions flds key :
  remove_descriptions flds !! key =
    if decide (key = "optdepends")
    then set_map (Str.split_first ":") <$> flds !! key
    else flds !! key.
Proof.
  unfold remove_descriptions. case_decide as Hkey.
  - subst key. destruct (flds !! "optdepends") eqn:E; [|by rewrite E].
    by rewrite lookup_insert_eq.
  - destruct (flds !! "optdepends"); [|done]. by rewrite lookup_insert_ne.
Qed.

(** The four fields as [parse_repo] stores them. *)
Lemma lookup_normalize_fields flds key :
  key ∈ pkgfields →
  normalize_fields flds !! key =
    Some (set_map remove_version
            (if decide (key = "optdepends")
             then set_map (Str.split_first ":") (default ∅ (flds !! key))
             else default ∅ (flds !! key))).
Proof.
  intros Hkey. unfold normalize_fields.
  rewrite lookup_fill_missing, lookup_remove_versions, lookup_remove_descriptions.
  rewrite !decide_True by done. f_equal.
  case_decide; destruct (flds !! key); cbn;
    rewrite ?remove_versions_of_map, ?set_map_empty; try done.
  all: exact (remove_versions_of_map _).

Qed.

End normalization.

(** C5: the three passes, in their order, leave of an entry that has a
    constraint character the part in front of the first one (the result is
    free of constraint characters and is followed, in the entry, by one),
    and leave an entry without constraint character as it is; a set is
    normalized entry by entry, and so is each of the four fields. *)
Theorem remove_version_bare_name (dep : string) (tmp : gset string)
    (flds : gmap string (gset string)) :
  (if has is_constraint dep
   then ∃ c rest, is_constraint c = true
                  ∧ dep = remove_version dep ++ String c rest
                  ∧ has is_constraint (remove_version dep) = false
   else remove_version dep = dep)
  ∧ remove_versions_of tmp = set_map remove_version tmp
  ∧ Forall (λ key, remove_versions flds !! key = remove_versions_of <$> flds !! key)
           pkgfields
  ∧ remove_version "foo>=1.2" = "foo"
  ∧ remove_version "bar<3" = "bar"
  ∧ remove_version "baz=1.0" = "baz".
Proof.
  split_and!; try done.
  - rewrite remove_version_before. destruct (has is_constraint dep) eqn:E.
    + destruct (before_cut _ _ E) as (c & rest & Hc & Hdep).
      exists c, rest. by rewrite before_free.
    + by apply before_all.
  - apply remove_versions_of_map.
  - apply Forall_forall. intros key Hkey.
    by rewrite lookup_remove_versions, decide_True.
Qed.

(** C6: of an optional dependency with a colon the part in front of the
    first colon is kept (it has no colon and is followed by one in the
    entry), an entry without colon is kept whole, and this is done to every
    entry of the [optdepends] set, whose entries are then stored with their
    version constraints removed. *)
Theorem optdepends_bare_names (optdep : string) (flds : gmap string (gset string)) :
  (if Str.contains ":" optdep
   then ∃ description,
          optdep = Str.split_first ":" optdep ++ String ":" description
          ∧ Str.contains ":" (Str.split_first ":" optdep) = false
   else Str.split_first ":" optdep = optdep)
  ∧ remove_descriptions flds !! "optdepends"
    = set_map (Str.split_first ":") <$> flds !! "optdepends"
  ∧ normalize_fields flds !! "optdepends"
    = Some (set_map remove_version
              (set_map (Str.split_first ":") (default ∅ (flds !! "optdepends"))
               : gset string))
  ∧ Str.split_first ":" "foo: some description" = "foo".
Proof.
  split_and!; try done.
  - rewrite !contains_has, split_first_before.
    destruct (has (is_char ":") optdep) eqn:E.
    + destruct (before_cut _ _ E) as (c & rest & Hc & Hdep).
      apply bool_decide_eq_true in Hc as ->.
      exists rest. by rewrite before_free.
    + by apply before_all.
  - by rewrite lookup_remove_descriptions, decide_True.
  - rewrite lookup_normalize_fields by by_evaluation. by rewrite decide_True.
Qed.

(** * Properties of the two scans of the index *)

Lemma for_each_ext {S A} (f g : S → A → result S) (xs : list A) (st : S) :
  (∀ st x, f st x = g st x) → for_each f xs st = for_each g xs st.
Proof.
  intros Hfg. revert st. induction xs as [|x xs IH]; intros st; cbn; [done|].
  rewrite Hfg. destruct (g st x); cbn; [apply IH|done].
Qed.

Section gather_facts.

Variables (keys : list string) (g : string → gset string → gset string).

Lemma gather_fields pkg entry ks acc R :
  gather_entry ks g pkg entry acc = Ok R →
  ∀ d, d ∈ R ↔ d ∈ acc ∨ ∃ key deps,
                  key ∈ ks ∧ fields entry !! key = Some deps ∧ d ∈ g pkg deps.
Proof.
  revert acc. induction ks as [|k ks IH]; intros acc; cbn.
  - intros [= <-] d. split; [by left|]. intros [?|(key & deps & []%elem_of_nil & _)]. done.
  - unfold getitem. destruct (fields entry !! k) as [deps|] eqn:Hk; cbn; [|done].
    intros HR d. rewrite (IH _ HR d), elem_of_union. split.
    + intros [[?|?]|(key & deps' & ? & ? & ?)].
      * by left.
      * right. exists k, deps. split_and!; [by left|done..].
      * right. exists key, deps'. split_and!; [by right|done..].
    + intros [?|(key & deps' & [->|?]%elem_of_cons & Hkey & ?)].
      * by left; left.
      * left; right. congruence.
      * right. by exists key, deps'.
Qed.

Lemma gather_fields_returns pkg entry ks acc :
  (∀ key, key ∈ ks → is_Some (fields entry !! key)) →
  is_Ok (gather_entry ks g pkg entry acc).
Proof.
  intros Hks. apply for_each_returns. intros key acc' Hkey.
  destruct (Hks key Hkey) as [deps Hdeps]. unfold getitem. rewrite Hdeps.
  by eexists.
Qed.

Lemma gather_spec entries acc R :
  gather keys g entries acc = Ok R →
  ∀ d, d ∈ R ↔ d ∈ acc ∨ ∃ pkg entry key deps,
                  (pkg, entry) ∈ entries ∧ key ∈ keys
                  ∧ fields entry !! key = Some deps ∧ d ∈ g pkg deps.
Proof.
  unfold gather. revert acc.
  induction entries as [|[pkg entry] entries IH]; intros acc; cbn.
  - intros [= <-] d. split; [by left|].
    intros [?|(? & ? & ? & ? & []%elem_of_nil & _)]. done.
  - destruct (gather_entry keys g pkg entry acc) as [acc'|] eqn:Hinner; cbn; [|done].
    intros HR d. rewrite (IH _ HR d), (gather_fields _ _ _ _ _ Hinner d). split.
    + intros [[?|(key & deps & ? & ? & ?)]|(pkg' & entry' & key & deps & ? & ?)].
      * by left.
      * right. exists pkg, entry, key, deps. split_and!; [by left|done..].
      * right. exists pkg', entry', key, deps. split; [by right|done].
    + intros [?|(pkg' & entry' & key & deps & [[= -> ->]|?]%elem_of_cons & ?)].
      * by left; left.
      * left; right. by exists key, deps.
      * right. by exists pkg', entry', key, deps.
Qed.

Lemma gather_fields_Ok pkg entry ks acc R key :
  gather_entry ks g pkg entry acc = Ok R → key ∈ ks → is_Some (fields entry !! key).
Proof.
  revert acc. induction ks as [|k ks IH]; intros acc; cbn.
  - by intros _ ?%elem_of_nil.
  - unfold getitem. destruct (fields entry !! k) as [deps|] eqn:Hk; cbn; [|done].
    intros HR [->|Hkey]%elem_of_cons; [by rewrite Hk|by eapply IH].
Qed.

Lemma gather_Ok_present entries acc R pkg entry key :
  gather keys g entries acc = Ok R →
  (pkg, entry) ∈ entries → key ∈ keys → is_Some (fields entry !! key).
Proof.
  unfold gather. revert acc.
  induction entries as [|[pkg' entry'] entries IH]; intros acc; cbn.
  - by intros _ ?%elem_of_nil.
  - destruct (gather_entry keys g pkg' entry' acc) as [acc'|] eqn:Hinner; cbn; [|done].
    intros HR [[= -> ->]|Hin]%elem_of_cons Hkey.
    + by eapply gather_fields_Ok.
    + by eapply IH.
Qed.

Lemma gather_returns entries acc :
  (∀ pkg entry key, (pkg, entry) ∈ entries → key ∈ keys → is_Some (fields entry !! key)) →
  is_Ok (gather keys g entries acc).
Proof.
  intros Hentries. apply for_each_returns. intros [pkg entry] acc' Hin.
  apply gather_fields_returns. intros key. by apply (Hentries pkg).
Qed.

End gather_facts.

Section scans.

Implicit Types (pkgs : gmap string package) (orphans : gset string).

Lemma referenced_names_gather pkgs :
  referenced_names pkgs = gather pkgfields (λ _ deps, deps) (map_to_list pkgs) ∅.
Proof. done. Qed.

Lemma what_requires_gather pkgs pkgname :
  what_requires pkgs pkgname
  = gather deptypes (λ pkg deps, if decide (pkgname ∈ deps) then {[pkg]} else ∅)
           (map_to_list pkgs) ∅.
Proof.
  apply for_each_ext. intros acc [pkg entry].
  apply for_each_ext. intros acc' key.
  destruct (getitem (fields entry) key) as [deps|]; cbn; [|done].
  case_decide; [done|]. by rewrite (right_id_L ∅ (∪)).
Qed.

Lemma deptypes_pkgfields key : key ∈ deptypes → key ∈ pkgfields.
Proof. unfold deptypes, pkgfields. rewrite !elem_of_cons, !elem_of_nil. tauto. Qed.

Lemma naming_spec keys pkgs dep found :
  naming keys pkgs dep = Ok found →
  ∀ pkg, pkg ∈ found ↔ names_in keys pkgs pkg dep.
Proof.
  intros Hg pkg. rewrite (gather_spec _ _ _ _ _ Hg pkg). unfold names_in. split.
  - intros [[]%elem_of_empty|(pkg' & entry & key & deps & Hin%elem_of_map_to_list & ? & ? & Hpkg)].
    case_decide; [|by apply elem_of_empty in Hpkg].
    apply elem_of_singleton in Hpkg as ->. by exists entry, key, deps.
  - intros (entry & key & deps & Hin%elem_of_map_to_list & ? & ? & ?).
    right. exists pkg, entry, key, deps. split_and!; [done..|].
    rewrite decide_True by done. by apply elem_of_singleton.
Qed.

(** What the two scans return. *)
Lemma referenced_names_spec pkgs required :
  referenced_names pkgs = Ok required →
  ∀ dep, dep ∈ required ↔ ∃ pkg, references pkgs pkg dep.
Proof.
  rewrite referenced_names_gather. intros Hg dep.
  rewrite (gather_spec _ _ _ _ _ Hg dep). unfold references, names_in. split.
  - intros [[]%elem_of_empty|(pkg & entry & key & deps & Hin%elem_of_map_to_list & ?)].
    by exists pkg, entry, key, deps.
  - intros (pkg & entry & key & deps & Hin%elem_of_map_to_list & ?).
    right. by exists pkg, entry, key, deps.
Qed.

Lemma what_requires_spec pkgs pkgname required_by :
  what_requires pkgs pkgname = Ok required_by →
  ∀ pkg, pkg ∈ required_by ↔ hard_requires pkgs pkg pkgname.
Proof. rewrite what_requires_gather. apply naming_spec. Qed.

Lemma referenced_names_Ok_present pkgs required :
  referenced_names pkgs = Ok required → fields_present pkgs.
Proof.
  rewrite referenced_names_gather. intros Hg pkg entry key Hentry Hkey.
  eapply gather_Ok_present; [done| |done]. by apply elem_of_map_to_list.
Qed.

Lemma find_unneeded_orphans_spec pkgs orphans initial :
  find_unneeded_orphans pkgs orphans = Ok initial →
  ∀ orphan, orphan ∈ initial ↔ orphan ∈ orphans ∧ ∀ pkg, ¬ references pkgs pkg orphan.
Proof.
  unfold find_unneeded_orphans.
  destruct (referenced_names pkgs) as [required|] eqn:Hreq; cbn; [|done].
  intros [= <-] orphan.
  rewrite elem_of_difference, (referenced_names_spec _ _ Hreq). naive_solver.
Qed.

(** With the four fields in place the scans meet no missing key. *)
Lemma referenced_names_returns pkgs :
  fields_present pkgs → is_Ok (referenced_names pkgs).
Proof.
  intros Hpkgs. rewrite referenced_names_gather. apply gather_returns.
  intros pkg entry key Hin%elem_of_map_to_list Hkey. by eapply Hpkgs.
Qed.

Lemma what_requires_returns pkgs pkgname :
  fields_present pkgs → is_Ok (what_requires pkgs pkgname).
Proof.
  intros Hpkgs. rewrite what_requires_gather. apply gather_returns.
  intros pkg entry key Hin%elem_of_map_to_list Hkey%deptypes_pkgfields.
  by eapply Hpkgs.
Qed.

End scans.

(** * The repository reader, end to end *)

Lemma bind_Ok {A B} (r : result A) (k : A → result B) (b : B) :
  r ≫= k = Ok b → ∃ a, r = Ok a ∧ k a = Ok b.
Proof. destruct r as [a|e]; cbn; [by exists a|done]. Qed.

Section reader.

Implicit Types (repodb : list Tar.member) (tarinfo : Tar.member)
  (pkgs : gmap string package).

(** A member adds at most one package, whose fields are normalized. *)
Lemma parse_member_Ok reponame repodb pkgs tarinfo pkgs' :
  parse_member reponame repodb pkgs tarinfo = Ok pkgs' →
  pkgs' = pkgs ∨
  ∃ pkgname pkgarch base flds,
    pkgs' = <[pkgname := Package reponame pkgarch base (normalize_fields flds) None]> pkgs.
Proof.
  unfold parse_member. destruct (Tar.isdir tarinfo); [|intros [= <-]; by left].
  intros (desc & _ & H)%bind_Ok. apply bind_Ok in H as (pkgname & _ & H).
  apply bind_Ok in H as (pkgarch & _ & H). apply bind_Ok in H as (base & _ & H).
  apply bind_Ok in H as (flds & _ & [= <-]). right. by exists pkgname, pkgarch, base, flds.
Qed.

Lemma parse_member_fields_present reponame repodb pkgs tarinfo pkgs' :
  fields_present pkgs →
  parse_member reponame repodb pkgs tarinfo = Ok pkgs' →
  fields_present pkgs'.
Proof.
  intros Hpkgs [->|(pkgname & pkgarch & base & flds & ->)]%parse_member_Ok; [done|].
  intros pkg entry key Hentry Hkey.
  destruct (decide (pkgname = pkg)) as [->|Hne].
  - rewrite lookup_insert_eq in Hentry. injection Hentry as <-. cbn [fields].
    rewrite lookup_normalize_fields by done. by eexists.
  - rewrite lookup_insert_ne in Hentry by done. by eapply Hpkgs.
Qed.

Lemma parse_repo_present dbpath repodb pkgs :
  parse_repo dbpath repodb = Ok pkgs → fields_present pkgs.
Proof.
  apply (for_each_invariant fields_present).
  - intros tarinfo pkgs1 pkgs2 _. apply parse_member_fields_present.
  - intros pkg entry key Hentry. by rewrite lookup_empty in Hentry.
Qed.

(** The merged index has the four fields as well. *)
Lemma get_packages_present fetch tmpdir mirror pkgs :
  get_packages fetch tmpdir mirror = Ok pkgs → fields_present pkgs.
Proof.
  apply (for_each_invariant fields_present).
  - intros name pkgs1 pkgs2 _ Hpkgs1 (new & Hnew%parse_repo_present & [= <-])%bind_Ok.
    intros pkg entry key [Hentry|[_ Hentry]]%lookup_union_Some_raw Hkey.
    + by eapply Hnew.
    + by eapply Hpkgs1.
  - intros pkg entry key Hentry. by rewrite lookup_empty in Hentry.
Qed.

Lemma merge_build_record_missing repodb tarinfo flds :
  no_build_record repodb tarinfo →
  merge_build_record repodb (Tar.name tarinfo) flds = Ok flds.
Proof.
  unfold no_build_record, merge_build_record, read_record. by intros ->.
Qed.

Lemma merge_build_record_plain repodb tarinfo flds :
  plain_build_record repodb tarinfo →
  is_Ok (merge_build_record repodb (Tar.name tarinfo) flds).
Proof.
  intros (tar & Htar & Hplain).
  unfold merge_build_record, read_record, Tar.extractfile.
  rewrite Htar. cbn. rewrite Hplain. cbn. by eexists.
Qed.

Lemma parse_member_described reponame repodb pkgs tarinfo desc pkgname pkgarch :
  Tar.isdir tarinfo = true →
  read_record repodb (Path.join (Tar.name tarinfo) "desc") = Ok desc →
  getitem desc "name" ≫= Str.first = Ok pkgname →
  getitem desc "arch" ≫= Str.pop = Ok pkgarch →
  desc !! "base" ≠ Some [] →
  no_build_record repodb tarinfo →
  parse_member reponame repodb pkgs tarinfo
  = Ok (<[pkgname := described_package reponame desc pkgarch]> pkgs).
Proof.
  intros Hdir Hdesc Hname Harch Hbase Hnone. unfold parse_member.
  rewrite Hdir, Hdesc. cbn [mbind result_bind]. rewrite Hname, Harch.
  rewrite merge_build_record_missing by done. unfold described_package.
  destruct (desc !! "base") as [[|value values]|]; done.
Qed.

Lemma parse_member_returns reponame repodb pkgs tarinfo :
  (Tar.isdir tarinfo = true →
   has_metadata repodb tarinfo
   ∧ (no_build_record repodb tarinfo ∨ plain_build_record repodb tarinfo)) →
  is_Ok (parse_member reponame repodb pkgs tarinfo).
Proof.
  unfold parse_member. destruct (Tar.isdir tarinfo); [|by eexists].
  intros [(desc & pkgname & pkgarch & Hdesc & Hname & Harch & Hbase) Hbuild]; [done|].
  rewrite Hdesc. cbn [mbind result_bind]. rewrite Hname, Harch.
  assert (is_Ok (merge_build_record repodb (Tar.name tarinfo) (take_fields desc ∅)))
    as [flds ->].
  { destruct Hbuild; [|by apply merge_build_record_plain].
    rewrite merge_build_record_missing by done. by eexists. }
  destruct (desc !! "base") as [[|value values]|]; [done|by eexists..].
Qed.

End reader.

(** C8: every package of the mapping that [parse_repo] returns has its
    four dependency fields, a field that neither record mentions being the
    empty set; on such a mapping the union of all dependencies and the
    search for requirers find every field they index. *)
Theorem parse_repo_fields_present (dbpath : string) (repodb : list Tar.member)
    (pkgs : gmap string package) :
  parse_repo dbpath repodb = Ok pkgs →
  fields_present pkgs
  ∧ (∀ flds, Forall (λ key, is_Some (normalize_fields flds !! key)
                            ∧ (flds !! key = None → normalize_fields flds !! key = Some ∅))
                    pkgfields)
  ∧ is_Ok (referenced_names pkgs)
  ∧ (∀ pkgname, is_Ok (what_requires pkgs pkgname)).
Proof.
  intros Hpkgs%parse_repo_present. split_and!; [done| |by apply referenced_names_returns|].
  - intros flds. apply Forall_forall. intros key Hkey.
    rewrite !lookup_normalize_fields by done. split; [by eexists|]. intros ->. cbn.
    by case_decide; rewrite !set_map_empty.
  - intros pkgname. by apply what_requires_returns.
Qed.

Lemma parse_repo_fields_present_sample :
  parse_repo "/tmp/db/core.db" sample_db = Ok sample_pkgs
  ∧ fields_present sample_pkgs
  ∧ is_Ok (referenced_names sample_pkgs).
Proof.
  assert (parse_repo "/tmp/db/core.db" sample_db = Ok sample_pkgs) as Hrun.
  { vm_compute. reflexivity. }
  split; [exact Hrun|].
  destruct (parse_repo_fields_present _ _ _ Hrun) as (Hpresent & _ & Hscan & _).
  split; [exact Hpresent|exact Hscan].
Defined.

(** C9: [parse_repo] raises as soon as one directory of the archive has
    no metadata record; a missing build record is passed over, the fields
    read so far staying as they are, as after a build record without
    blocks, so that the package is the one its metadata record describes;
    and the reader returns when every directory has a usable metadata
    record, with or without a build record. *)
Theorem parse_repo_missing_records (dbpath : string) (repodb : list Tar.member) :
  (∀ tarinfo,
      tarinfo ∈ repodb → Tar.isdir tarinfo = true →
      raises (Tar.getmember repodb (Path.join (Tar.name tarinfo) "desc")) →
      raises (parse_repo dbpath repodb))
  ∧ (∀ tarinfo flds,
        no_build_record repodb tarinfo →
        merge_build_record repodb (Tar.name tarinfo) flds = Ok flds
        ∧ merge_fields ∅ flds = flds)
  ∧ (∀ tarinfo pkgs desc pkgname pkgarch,
        Tar.isdir tarinfo = true →
        read_record repodb (Path.join (Tar.name tarinfo) "desc") = Ok desc →
        getitem desc "name" ≫= Str.first = Ok pkgname →
        getitem desc "arch" ≫= Str.pop = Ok pkgarch →
        desc !! "base" ≠ Some [] →
        no_build_record repodb tarinfo →
        parse_member (reponame_of dbpath) repodb pkgs tarinfo
        = Ok (<[pkgname := described_package (reponame_of dbpath) desc pkgarch]> pkgs))
  ∧ ((∀ tarinfo,
         tarinfo ∈ repodb → Tar.isdir tarinfo = true →
         has_metadata repodb tarinfo
         ∧ (no_build_record repodb tarinfo ∨ plain_build_record repodb tarinfo)) →
     is_Ok (parse_repo dbpath repodb)).
Proof.
  split_and!.
  - intros tarinfo Hin Hdir [e Hmissing]. apply (for_each_raises _ _ tarinfo); [done|].
    intros pkgs. unfold parse_member, read_record. rewrite Hdir, Hmissing. by exists e.
  - intros tarinfo flds Hnone. split; [by apply merge_build_record_missing|].
    apply merge_fields_empty.
  - intros tarinfo pkgs desc pkgname pkgarch. apply parse_member_described.
  - intros Hall. apply for_each_returns. intros tarinfo pkgs Hin.
    apply parse_member_returns. intros Hdir. by apply Hall.
Qed.

Lemma parse_repo_missing_records_samples :
  raises (parse_repo "/tmp/db/core.db" broken_db)
  ∧ merge_build_record sample_db "foo-1.0-1" (<["depends" := {["glibc>=2.30"]}]> ∅)
    = Ok (<["depends" := {["glibc>=2.30"]}]> ∅)
  ∧ is_Ok (parse_repo "/tmp/db/core.db" sample_db).
Proof.
  pose proof (parse_repo_missing_records "/tmp/db/core.db" broken_db) as (Hfails & _).
  pose proof (parse_repo_missing_records "/tmp/db/core.db" sample_db)
    as (_ & Hkeeps & _ & Hreturns).
  split_and!.
  - apply (Hfails (Tar.Member "foo-1.0-1" true "")); [by left|done|].
    eexists. vm_compute. reflexivity.
  - apply (Hkeeps (Tar.Member "foo-1.0-1" true "")). vm_compute. reflexivity.
  - apply Hreturns. intros tarinfo Hin Hdir.
    unfold sample_db in Hin. rewrite !elem_of_cons, elem_of_nil in Hin.
    destruct Hin as [->|[->|[->|[->|[->|[]]]]]]; try discriminate Hdir.
    + split; [|left; vm_compute; reflexivity].
      eexists _, _, _. split_and!; [vm_compute; reflexivity..|by vm_compute].
    + split; [|right; eexists; split; vm_compute; reflexivity].
      eexists _, _, _. split_and!; [vm_compute; reflexivity..|by vm_compute].
Defined.

(** * Properties of the classifier *)

Section classifier_facts.

Variable get_maintainers : string → string → string → list string.
Variable iter : gset string → list string.
Hypothesis iter_order : iteration_order iter.

Implicit Types (pkgs : gmap string package) (orphans : gset string)
  (st : classification) (orphan : string).

#[local] Abbreviation agrees := (agrees get_maintainers).
#[local] Abbreviation known := (known_maintainers get_maintainers).
#[local] Abbreviation pulled_in_by := (pulled_in_by get_maintainers).
#[local] Abbreviation step := (classify_orphan get_maintainers iter).
#[local] Abbreviation run := (classify_orphans get_maintainers iter).

Lemma elem_of_iter X x : x ∈ iter X ↔ x ∈ X.
Proof. by rewrite (iter_order X), elem_of_elements. Qed.

Lemma agrees_refl pkgs : agrees pkgs pkgs.
Proof. intros pkg. by destruct (pkgs !! pkg). Qed.

Lemma agrees_lookup pkgs pkgs' pkg entry :
  agrees pkgs pkgs' → pkgs !! pkg = Some entry →
  ∃ entry', pkgs' !! pkg = Some entry'
            ∧ (∀ key, key ∈ pkgfields → fields entry !! key = fields entry' !! key)
            ∧ known pkg entry = known pkg entry'.
Proof.
  intros Hag Hentry. specialize (Hag pkg). rewrite Hentry in Hag.
  destruct (pkgs' !! pkg) as [entry'|]; [|done]. by exists entry'.
Qed.

Lemma agrees_lookup_None pkgs pkgs' pkg :
  agrees pkgs pkgs' → pkgs !! pkg = None → pkgs' !! pkg = None.
Proof.
  intros Hag Hentry. specialize (Hag pkg). rewrite Hentry in Hag.
  by destruct (pkgs' !! pkg).
Qed.

Lemma agrees_sym pkgs pkgs' : agrees pkgs pkgs' → agrees pkgs' pkgs.
Proof.
  intros Hag pkg. specialize (Hag pkg).
  destruct (pkgs !! pkg), (pkgs' !! pkg); try done.
  destruct Hag as [Hfields Hknown]. split; [|done].
  intros key Hkey. symmetry. by apply Hfields.
Qed.

(** Replacing an entry by one with the same fields and maintainers. *)
Lemma agrees_insert pkgs pkgs' pkg entry' entry'' :
  agrees pkgs pkgs' → pkgs' !! pkg = Some entry' →
  (∀ key, key ∈ pkgfields → fields entry' !! key = fields entry'' !! key) →
  known pkg entry' = known pkg entry'' →
  agrees pkgs (<[pkg := entry'']> pkgs').
Proof.
  intros Hag Hentry Hfields Hknown name. specialize (Hag name).
  destruct (decide (pkg = name)) as [->|Hne].
  - rewrite lookup_insert_eq. rewrite Hentry in Hag.
    destruct (pkgs !! name); [|done]. destruct Hag as [Hf Hk]. split.
    + intros key Hkey. by rewrite Hf, Hfields.
    + by rewrite Hk.
  - by rewrite lookup_insert_ne.
Qed.

Lemma agrees_names_in keys pkgs pkgs' pkg dep :
  (∀ key, key ∈ keys → key ∈ pkgfields) →
  agrees pkgs pkgs' → names_in keys pkgs pkg dep → names_in keys pkgs' pkg dep.
Proof.
  intros Hkeys Hag (entry & key & deps & Hentry & Hkey & Hdeps & Hdep).
  destruct (agrees_lookup _ _ _ _ Hag Hentry) as (entry' & Hentry' & Hfields & _).
  exists entry', key, deps. split_and!; [done..| |done].
  by rewrite <-Hfields by by apply Hkeys.
Qed.

Lemma agrees_fields_present pkgs pkgs' :
  agrees pkgs pkgs' → fields_present pkgs → fields_present pkgs'.
Proof.
  intros Hag%agrees_sym Hpresent pkg entry' key Hentry' Hkey.
  destruct (agrees_lookup _ _ _ _ Hag Hentry') as (entry & Hentry & Hfields & _).
  rewrite Hfields by done. by eapply Hpresent.
Qed.

(** The requirers found in the annotated index are those of the index. *)
Lemma agrees_what_requires pkgs pkgs' orphan required_by :
  fields_present pkgs → agrees pkgs pkgs' →
  what_requires pkgs orphan = Ok required_by →
  what_requires pkgs' orphan = Ok required_by.
Proof.
  intros Hpresent Hag Hreq.
  destruct (what_requires_returns pkgs' orphan) as [required_by' Hreq'];
    [by eapply agrees_fields_present|].
  rewrite Hreq'. f_equal. apply set_eq. intros pkg.
  rewrite (what_requires_spec _ _ _ Hreq), (what_requires_spec _ _ _ Hreq').
  split; apply agrees_names_in; auto using deptypes_pkgfields, agrees_sym.
Qed.

(** The loop over the requirers of a required orphan. *)
Lemma record_maintainers_loop pkgs (requirers : list string) annotated by_pkg :
  agrees pkgs annotated →
  (∀ pkg, pkg ∈ requirers → is_Some (pkgs !! pkg)) →
  ∃ found,
    for_each (record_maintainers get_maintainers) requirers (annotated, by_pkg) = Ok found
    ∧ agrees pkgs found.1
    ∧ ∀ pkg, found.2 !! pkg =
             if decide (pkg ∈ requirers) then known pkg <$> pkgs !! pkg
             else by_pkg !! pkg.
Proof.
  revert annotated by_pkg.
  induction requirers as [|req requirers IH]; intros annotated by_pkg Hag Hin.
  - exists (annotated, by_pkg). split_and!; [done..|]. intros pkg.
    by rewrite decide_False by apply not_elem_of_nil.
  - destruct (Hin req) as [entry Hentry]; [by left|].
    destruct (agrees_lookup _ _ _ _ Hag Hentry) as (entry' & Hentry' & Hfields & Hknown).
    assert (∃ annotated',
               record_maintainers get_maintainers (annotated, by_pkg) req
               = Ok (annotated', <[req := known req entry]> by_pkg)
               ∧ agrees pkgs annotated') as (annotated' & Hstep & Hag').
    { unfold record_maintainers, getitem. cbn [fst snd]. rewrite Hentry'.
      cbn [mbind result_bind]. rewrite Hknown. unfold known_maintainers.
      destruct (maintainers entry') as [noted|] eqn:Hnoted; cbn.
      - by eexists.
      - eexists. split; [done|].
        eapply agrees_insert; [done..|]. unfold known_maintainers.
        by rewrite Hnoted. }
    destruct (IH annotated' (<[req := known req entry]> by_pkg) Hag')
      as (found & Hloop & Hfound & Hby); [by intros pkg ?; apply Hin; right|].
    exists found. split_and!; [|done|].
    + cbn [for_each]. by rewrite Hstep.
    + intros pkg. rewrite Hby. destruct (decide (pkg ∈ requirers)) as [Hpkg|Hpkg].
      * by rewrite decide_True by by right.
      * destruct (decide (pkg = req)) as [->|Hne].
        -- rewrite decide_True by left. by rewrite lookup_insert_eq, Hentry.
        -- rewrite lookup_insert_ne by done. rewrite decide_False; [done|].
           by intros [?|?]%elem_of_cons.
Qed.

(** The test of the loop, in the words of the index. *)
Lemma requirers_subseteq pkgs orphans orphan required_by :
  what_requires pkgs orphan = Ok required_by →
  required_by ⊆ orphans ↔ orphaned_requirers pkgs orphans orphan.
Proof.
  intros Hreq. unfold orphaned_requirers. split.
  - intros Hsub pkg Hpkg. apply Hsub. by apply (what_requires_spec _ _ _ Hreq).
  - intros Hall pkg Hpkg. apply Hall. by apply (what_requires_spec _ _ _ Hreq).
Qed.

Lemma requirers_not_subseteq pkgs orphans orphan required_by :
  what_requires pkgs orphan = Ok required_by →
  required_by ⊈ orphans ↔ maintained_requirer pkgs orphans orphan.
Proof.
  intros Hreq. unfold maintained_requirer. split.
  - intros Hsub. destruct (decide (required_by ∖ orphans = ∅)) as [Hempty|Hne].
    + destruct Hsub. intros pkg Hpkg.
      destruct (decide (pkg ∈ orphans)) as [|Hout]; [done|].
      assert (pkg ∈ required_by ∖ orphans) as Hdiff by by apply elem_of_difference.
      rewrite Hempty in Hdiff. by apply elem_of_empty in Hdiff.
    + apply set_choose_L in Hne as [pkg [Hpkg Hout]%elem_of_difference].
      exists pkg. split; [|done]. by apply (what_requires_spec _ _ _ Hreq).
  - intros (pkg & Hpkg & Hout) Hsub. apply Hout, Hsub.
    by apply (what_requires_spec _ _ _ Hreq).
Qed.

Lemma orphaned_or_maintained pkgs orphans orphan :
  fields_present pkgs →
  orphaned_requirers pkgs orphans orphan ∨ maintained_requirer pkgs orphans orphan.
Proof.
  intros Hpresent.
  destruct (what_requires_returns pkgs orphan Hpresent) as [required_by Hreq].
  destruct (decide (required_by ⊆ orphans)) as [Hsub|Hsub].
  - left. by apply (requirers_subseteq _ _ _ _ Hreq).
  - right. by apply (requirers_not_subseteq _ _ _ _ Hreq).
Qed.

Lemma orphaned_not_maintained pkgs orphans orphan :
  orphaned_requirers pkgs orphans orphan → ¬ maintained_requirer pkgs orphans orphan.
Proof. intros Hall (pkg & Hpkg & Hout). by apply Hout, Hall. Qed.

Lemma hard_requires_indexed pkgs pkg orphan :
  hard_requires pkgs pkg orphan → is_Some (pkgs !! pkg).
Proof. intros (entry & _ & _ & -> & _). by eexists. Qed.

Lemma hard_requires_references pkgs pkg orphan :
  hard_requires pkgs pkg orphan → references pkgs pkg orphan.
Proof.
  intros (entry & key & deps & ? & ?%deptypes_pkgfields & ?).
  by exists entry, key, deps.
Qed.

Lemma pulled_in_by_unique pkgs orphan by_pkg by_pkg' :
  pulled_in_by pkgs orphan by_pkg → pulled_in_by pkgs orphan by_pkg' →
  by_pkg = by_pkg'.
Proof.
  intros H1 H2. apply map_eq. intros pkg. apply option_eq. intros found.
  by rewrite (H1 pkg found), (H2 pkg found).
Qed.

(** One iteration of the loop of [main]. *)
Lemma classify_orphan_step pkgs orphans st orphan :
  fields_present pkgs → agrees pkgs (packages st) →
  match pkgs !! orphan with
  | None => step orphans st orphan = Raise (KeyError orphan)
  | Some _ =>
      ∃ st', step orphans st orphan = Ok st'
             ∧ agrees pkgs (packages st')
             ∧ ((orphaned_requirers pkgs orphans orphan
                 ∧ unneeded st' = unneeded st ∪ {[orphan]}
                 ∧ required_orphans st' = required_orphans st)
                ∨ (maintained_requirer pkgs orphans orphan
                   ∧ unneeded st' = unneeded st
                   ∧ ∃ by_pkg,
                       required_orphans st' = <[orphan := by_pkg]> (required_orphans st)
                       ∧ pulled_in_by pkgs orphan by_pkg))
  end.
Proof.
  intros Hpresent Hag.
  destruct (what_requires_returns pkgs orphan Hpresent) as [required_by Hreq].
  pose proof (agrees_what_requires _ _ _ _ Hpresent Hag Hreq) as Hreq'.
  unfold classify_orphan. rewrite Hreq'.
  cbn [mbind result_bind]. unfold getitem.
  destruct (pkgs !! orphan) as [entry|] eqn:Hentry.
  - destruct (agrees_lookup _ _ _ _ Hag Hentry) as (entry' & Hentry' & _).
    rewrite Hentry'. cbn [mbind result_bind].
    assert (agrees pkgs (<[orphan := set_field "required_by" required_by entry']>
                           (packages st))) as Hag'.
    { eapply agrees_insert; [done..| |done].
      intros key Hkey. cbn. rewrite lookup_insert_ne; [done|].
      intros <-. revert Hkey. unfold pkgfields.
      rewrite !elem_of_cons, elem_of_nil. by intros [|[|[|[|]]]]. }
    destruct (decide (required_by ⊆ orphans)) as [Hsub|Hsub].
    + eexists. split; [done|]. split; [done|]. left.
      split; [|done]. by apply (requirers_subseteq _ _ _ _ Hreq).
    + destruct (record_maintainers_loop pkgs (iter required_by) _ ∅ Hag')
        as (found & -> & Hfound & Hby).
      { intros pkg Hpkg%elem_of_iter. eapply hard_requires_indexed.
        by apply (what_requires_spec _ _ _ Hreq). }
      cbn [mbind result_bind]. eexists. split; [done|]. split; [done|]. right.
      split; [by apply (requirers_not_subseteq _ _ _ _ Hreq)|].
      split; [done|]. exists found.2. split; [done|].
      intros pkg maint. rewrite Hby, lookup_empty.
      rewrite <-(what_requires_spec _ _ _ Hreq pkg). split.
      * case_decide as Hpkg; [|done]. apply elem_of_iter in Hpkg.
        destruct (pkgs !! pkg) as [e|]; [|done]. intros [= <-]. eauto.
      * intros (Hpkg & e & He & ->). rewrite decide_True by by apply elem_of_iter.
        by rewrite He.
  - by rewrite (agrees_lookup_None _ _ _ Hag Hentry).
Qed.

(** The loop of [main] over orphans that are all in the index. *)
Lemma classify_loop pkgs orphans (order : list string) st :
  fields_present pkgs → agrees pkgs (packages st) →
  (∀ orphan, orphan ∈ order → is_Some (pkgs !! orphan)) →
  ∃ st',
    for_each (step orphans) order st = Ok st'
    ∧ agrees pkgs (packages st')
    ∧ (∀ orphan, orphan ∈ unneeded st' ↔
                 orphan ∈ unneeded st
                 ∨ (orphan ∈ order ∧ orphaned_requirers pkgs orphans orphan))
    ∧ (∀ orphan, is_Some (required_orphans st' !! orphan) ↔
                 is_Some (required_orphans st !! orphan)
                 ∨ (orphan ∈ order ∧ maintained_requirer pkgs orphans orphan))
    ∧ (∀ orphan by_pkg,
          required_orphans st' !! orphan = Some by_pkg →
          required_orphans st !! orphan = Some by_pkg ∨ pulled_in_by pkgs orphan by_pkg).
Proof.
  intros Hpresent. revert st.
  induction order as [|o order IH]; intros st Hag Hin.
  - exists st. split_and!; [done..| | |by left].
    + intros orphan. split; [by left|]. by intros [?|[[]%elem_of_nil _]].
    + intros orphan. split; [by left|]. by intros [?|[[]%elem_of_nil _]].
  - pose proof (classify_orphan_step pkgs orphans st o Hpresent Hag) as Hstep.
    destruct (Hin o) as [entry Hentry]; [by left|]. rewrite Hentry in Hstep.
    destruct Hstep as (st1 & Hst1 & Hag1 & Hcases).
    destruct (IH st1 Hag1) as (st' & Hloop & Hag' & Hun & Hdom & Hval);
      [by intros orphan ?; apply Hin; right|].
    exists st'. split; [by cbn [for_each]; rewrite Hst1|]. split; [done|].
    destruct Hcases as [(Horph & Hu1 & Hr1)|(Hmaint & Hu1 & by_pkg & Hr1 & Hby)].
    + split_and!.
      * intros orphan. rewrite Hun, Hu1, elem_of_union, elem_of_singleton, elem_of_cons.
        naive_solver.
      * intros orphan. rewrite Hdom, Hr1, elem_of_cons.
        pose proof (orphaned_not_maintained _ _ _ Horph). naive_solver.
      * intros orphan by_pkg. rewrite <-Hr1. apply Hval.
    + split_and!.
      * intros orphan. rewrite Hun, Hu1, elem_of_cons.
        pose proof (orphaned_not_maintained pkgs orphans o). naive_solver.
      * intros orphan. rewrite Hdom, Hr1, elem_of_cons.
        destruct (decide (o = orphan)) as [->|Hne].
        -- rewrite lookup_insert_eq. naive_solver.
        -- rewrite lookup_insert_ne by done. naive_solver.
      * intros orphan by_pkg' [Hold|Hnew]%Hval; [|by right].
        rewrite Hr1 in Hold. destruct (decide (o = orphan)) as [->|Hne].
        -- rewrite lookup_insert_eq in Hold. injection Hold as <-. by right.
        -- rewrite lookup_insert_ne in Hold by done. by left.
Qed.

(** The loop meets an orphan that is not in the index. *)
Lemma classify_loop_raises pkgs orphans (order : list string) st :
  fields_present pkgs → agrees pkgs (packages st) →
  (∃ orphan, orphan ∈ order ∧ pkgs !! orphan = None) →
  ∃ orphan, orphan ∈ order ∧ pkgs !! orphan = None
            ∧ for_each (step orphans) order st = Raise (KeyError orphan).
Proof.
  intros Hpresent. revert st.
  induction order as [|o order IH]; intros st Hag (missing & Hin & Hmissing).
  - by apply elem_of_nil in Hin.
  - pose proof (classify_orphan_step pkgs orphans st o Hpresent Hag) as Hstep.
    destruct (pkgs !! o) as [entry|] eqn:Hentry.
    + destruct Hstep as (st1 & Hst1 & Hag1 & _).
      destruct (IH st1 Hag1) as (orphan & Horphan & Hnone & Hraise).
      { exists missing. split; [|done].
        apply elem_of_cons in Hin as [->|Hin]; [congruence|done]. }
      exists orphan. split_and!; [by right|done|].
      cbn [for_each]. by rewrite Hst1.
    + exists o. split_and!; [by left|done|]. cbn [for_each]. by rewrite Hstep.
Qed.

(** The orphans that go through the loop. *)
Lemma elem_of_loop_order pkgs orphans initial orphan :
  find_unneeded_orphans pkgs orphans = Ok initial →
  orphan ∈ iter (orphans ∖ initial) ↔
  orphan ∈ orphans ∧ ∃ pkg, references pkgs pkg orphan.
Proof.
  unfold find_unneeded_orphans.
  destruct (referenced_names pkgs) as [required|] eqn:Hreq; cbn; [|done].
  intros [= <-]. rewrite elem_of_iter, <-(referenced_names_spec _ _ Hreq).
  rewrite !elem_of_difference. split; [|naive_solver].
  intros [Hin Hnot]. split; [done|].
  destruct (decide (orphan ∈ required)); [done|]. destruct Hnot. by split.
Qed.

(** What [main] computes when it gets through the loop. *)
Lemma classify_orphans_Ok pkgs orphans outcome :
  run pkgs orphans = Ok outcome →
  fields_present pkgs
  ∧ orphans_indexed pkgs orphans
  ∧ (∀ orphan, orphan ∈ outcome.1 ↔
               orphan ∈ orphans ∧ orphaned_requirers pkgs orphans orphan)
  ∧ (∀ orphan by_pkg, outcome.2 !! orphan = Some by_pkg ↔
                      orphan ∈ orphans ∧ maintained_requirer pkgs orphans orphan
                      ∧ pulled_in_by pkgs orphan by_pkg)
  ∧ (∀ orphan, orphan ∈ dom outcome.2 ↔
               orphan ∈ orphans ∧ maintained_requirer pkgs orphans orphan).
Proof.
  unfold classify_orphans.
  intros (initial & Hinitial & Hrun)%bind_Ok.
  apply bind_Ok in Hrun as (st & Hloop & [= <-]). cbn [fst snd].
  assert (fields_present pkgs) as Hpresent.
  { unfold find_unneeded_orphans in Hinitial.
    apply bind_Ok in Hinitial as (required & Hreq & _).
    by eapply referenced_names_Ok_present. }
  pose proof (agrees_refl pkgs) as Hag.
  assert (∀ orphan, orphan ∈ iter (orphans ∖ initial) → is_Some (pkgs !! orphan))
    as Hindexed.
  { destruct (decide (Forall (λ orphan, is_Some (pkgs !! orphan))
                             (iter (orphans ∖ initial)))) as [Hall|Hex].
    - by apply Forall_forall.
    - apply not_Forall_Exists, Exists_exists in Hex as (missing & Hin & Hmissing); [|apply _].
      destruct (classify_loop_raises pkgs orphans (iter (orphans ∖ initial))
                  (Classification pkgs initial ∅) Hpresent Hag)
        as (orphan & _ & _ & Hraise).
      { exists missing. split; [done|]. cbn in Hmissing.
        destruct (pkgs !! missing); [|done]. destruct Hmissing. by eexists. }
      congruence. }
  destruct (classify_loop pkgs orphans (iter (orphans ∖ initial))
              (Classification pkgs initial ∅) Hpresent Hag Hindexed) as (st' & Hloop' & _ & Hun & Hdom & Hval).
  rewrite Hloop in Hloop'. injection Hloop' as <-. cbn [unneeded required_orphans] in *.
  split; [done|]. split.
  { intros orphan pkg Hin Href. apply Hindexed.
    apply (elem_of_loop_order _ _ _ _ Hinitial). eauto. }
  split_and!.
  - intros orphan. rewrite Hun, (elem_of_loop_order _ _ _ _ Hinitial),
      (find_unneeded_orphans_spec _ _ _ Hinitial). split.
    + intros [[Hin Hnone]|[[Hin _] Horph]]; [|done]. split; [done|].
      intros pkg Hpkg%hard_requires_references. by destruct (Hnone pkg).
    + intros [Hin Horph].
      destruct (decide (orphan ∈ initial)) as [Hinit|Hinit].
      * left. by apply (find_unneeded_orphans_spec _ _ _ Hinitial).
      * right. split; [|done]. apply (elem_of_loop_order _ _ _ _ Hinitial).
        apply elem_of_iter, elem_of_difference. by split.
  - intros orphan by_pkg. split.
    + intros Hlookup.
      destruct (proj1 (Hdom orphan)) as [[? Hempty]|[Hin Hmaint]]; [by eexists| |].
      { by rewrite lookup_empty in Hempty. }
      apply (elem_of_loop_order _ _ _ _ Hinitial) in Hin as [Hin _].
      split_and!; [done..|].
      destruct (Hval _ _ Hlookup) as [Hempty|?]; [|done].
      by rewrite lookup_empty in Hempty.
    + intros (Hin & Hmaint & Hby).
      destruct (proj2 (Hdom orphan)) as [by_pkg' Hlookup].
      { right. split; [|done]. apply (elem_of_loop_order _ _ _ _ Hinitial).
        split; [done|]. destruct Hmaint as (pkg & Hpkg%hard_requires_references & _).
        by exists pkg. }
      rewrite Hlookup. f_equal.
      destruct (Hval _ _ Hlookup) as [Hempty|Hby']; [by rewrite lookup_empty in Hempty|].
      by eapply pulled_in_by_unique.
  - intros orphan. rewrite elem_of_dom, Hdom, (elem_of_loop_order _ _ _ _ Hinitial).
    split.
    + intros [[? Hempty]|[[Hin _] Hmaint]]; [by rewrite lookup_empty in Hempty|done].
    + intros [Hin Hmaint]. right. split; [|done]. split; [done|].
      destruct Hmaint as (pkg & Hpkg%hard_requires_references & _). by exists pkg.
Qed.

(** [main] gets through the loop when the orphans it looks up are there. *)
Lemma classify_orphans_returns pkgs orphans :
  fields_present pkgs → orphans_indexed pkgs orphans →
  is_Ok (run pkgs orphans).
Proof.
  intros Hpresent Hindexed. unfold classify_orphans.
  destruct (referenced_names_returns pkgs Hpresent) as [required Hreq].
  assert (find_unneeded_orphans pkgs orphans = Ok (orphans ∖ required)) as Hinitial.
  { unfold find_unneeded_orphans. by rewrite Hreq. }
  rewrite Hinitial. cbn [mbind result_bind].
  destruct (classify_loop pkgs orphans (iter (orphans ∖ (orphans ∖ required)))
              (Classification pkgs (orphans ∖ required) ∅) Hpresent (agrees_refl pkgs))
    as (st' & -> & _).
  { intros orphan [Hin [pkg Hpkg]]%(elem_of_loop_order _ _ _ _ Hinitial).
    by eapply Hindexed. }
  by eexists.
Qed.

(** [main] stops with [KeyError] at an orphan that is referenced and
    not in the index. *)
Lemma classify_orphans_raises pkgs orphans orphan pkg :
  fields_present pkgs →
  orphan ∈ orphans → references pkgs pkg orphan → pkgs !! orphan = None →
  ∃ missing, missing ∈ orphans ∧ pkgs !! missing = None
             ∧ (∃ pkg', references pkgs pkg' missing)
             ∧ run pkgs orphans = Raise (KeyError missing).
Proof.
  intros Hpresent Hin Href Hnone. unfold classify_orphans.
  destruct (referenced_names_returns pkgs Hpresent) as [required Hreq].
  assert (find_unneeded_orphans pkgs orphans = Ok (orphans ∖ required)) as Hinitial.
  { unfold find_unneeded_orphans. by rewrite Hreq. }
  rewrite Hinitial. cbn [mbind result_bind].
  destruct (classify_loop_raises pkgs orphans (iter (orphans ∖ (orphans ∖ required)))
              (Classification pkgs (orphans ∖ required) ∅) Hpresent (agrees_refl pkgs))
    as (missing & Hmissing & Hnone' & ->).
  { exists orphan. split; [|done]. apply (elem_of_loop_order _ _ _ _ Hinitial). eauto. }
  apply (elem_of_loop_order _ _ _ _ Hinitial) in Hmissing as [? ?].
  by exists missing.
Qed.

End classifier_facts.

(** * The classifier, claim by claim *)

Lemma iteration_order_elements : iteration_order elements.
Proof. by intros X. Qed.

Lemma demo_run :
  classify_orphans demo_maintainers elements demo_pkgs demo_orphans
  = Ok ({["o"; "w"; "x"; "y"; "z"]}, {[ "b" := {[ "a" := ["maintainer of a"] ]} ]}).
Proof. vm_compute. reflexivity. Qed.

(** C1, as amended: when every package has its four fields and every
    orphan that some package references is in the index, the classifier
    returns, and its two results split the orphans: [unneeded] united with
    the keys of [required] is [O], and the two have nothing in common. *)
Theorem classifier_partitions
    (get_maintainers : string → string → string → list string)
    (iter : gset string → list string)
    (pkgs : gmap string package) (orphans : gset string) :
  iteration_order iter → fields_present pkgs → orphans_indexed pkgs orphans →
  ∃ outcome,
    classify_orphans get_maintainers iter pkgs orphans = Ok outcome
    ∧ outcome.1 ∪ dom outcome.2 = orphans
    ∧ outcome.1 ## dom outcome.2.
Proof.
  intros Hiter Hpresent Hindexed.
  destruct (classify_orphans_returns get_maintainers iter Hiter _ _ Hpresent Hindexed)
    as [outcome Hrun].
  exists outcome. split; [done|].
  destruct (classify_orphans_Ok _ _ Hiter _ _ _ Hrun) as (_ & _ & Hun & _ & Hdom).
  split.
  - apply set_eq. intros orphan. rewrite elem_of_union, Hun, Hdom.
    destruct (orphaned_or_maintained pkgs orphans orphan Hpresent); tauto.
  - intros orphan [_ Horph]%Hun [_ Hmaint]%Hdom.
    by destruct (orphaned_not_maintained _ _ _ Horph).
Qed.

Lemma classifier_partitions_demo :
  iteration_order elements ∧ fields_present demo_pkgs
  ∧ orphans_indexed demo_pkgs demo_orphans
  ∧ ∃ outcome,
      classify_orphans demo_maintainers elements demo_pkgs demo_orphans = Ok outcome
      ∧ outcome.1 ∪ dom outcome.2 = demo_orphans
      ∧ outcome.1 ## dom outcome.2.
Proof.
  destruct (classify_orphans_Ok _ _ iteration_order_elements _ _ _ demo_run)
    as (Hpresent & Hindexed & _).
  split_and!; [exact iteration_order_elements|exact Hpresent|exact Hindexed|].
  exact (classifier_partitions demo_maintainers elements demo_pkgs demo_orphans
           iteration_order_elements Hpresent Hindexed).
Defined.

Lemma dangling_present : fields_present dangling_pkgs.
Proof.
  intros pkg entry key Hentry Hkey. unfold dangling_pkgs in Hentry.
  apply lookup_insert_Some in Hentry as [[_ <-]|[_ Hempty]];
    [|by rewrite lookup_empty in Hempty].
  revert Hkey. unfold pkgfields. rewrite !elem_of_cons, elem_of_nil.
  intros [->|[->|[->|[->|[]]]]]; by eexists.
Qed.

Lemma dangling_run :
  classify_orphans demo_maintainers elements dangling_pkgs dangling_orphans
  = Raise (KeyError "b").
Proof. vm_compute. reflexivity. Qed.

(** C1, as stated, fails on an orphan that a package needs and no
    repository has: the loop looks it up in the index and stops. *)
Lemma classifier_stops_at_dangling_orphan :
  fields_present dangling_pkgs
  ∧ classify_orphans demo_maintainers elements dangling_pkgs dangling_orphans
    = Raise (KeyError "b")
  ∧ ¬ ∃ outcome,
        classify_orphans demo_maintainers elements dangling_pkgs dangling_orphans
        = Ok outcome
        ∧ outcome.1 ∪ dom outcome.2 = dangling_orphans.
Proof.
  split_and!; [exact dangling_present|exact dangling_run|].
  intros (outcome & Hok & _). rewrite dangling_run in Hok. discriminate Hok.
Qed.

Section classification_cases.

Variable get_maintainers : string → string → string → list string.
Variable iter : gset string → list string.
Hypothesis iter_order : iteration_order iter.

Implicit Types (pkgs : gmap string package) (orphans : gset string).

(** An orphan that is referenced stays out of the first [unneeded]. *)
Lemma referenced_not_initial pkgs orphans orphan pkg :
  fields_present pkgs → references pkgs pkg orphan →
  ∃ initial, find_unneeded_orphans pkgs orphans = Ok initial ∧ orphan ∉ initial.
Proof.
  intros Hpresent Href.
  destruct (referenced_names_returns pkgs Hpresent) as [required Hreq].
  exists (orphans ∖ required). unfold find_unneeded_orphans. rewrite Hreq.
  split; [done|]. intros [_ Hnot]%elem_of_difference. apply Hnot.
  apply (referenced_names_spec _ _ Hreq). by exists pkg.
Qed.

(** An orphan that nothing references is in it. *)
Lemma unreferenced_initial pkgs orphans orphan :
  fields_present pkgs → orphan ∈ orphans → (∀ pkg, ¬ references pkgs pkg orphan) →
  ∃ initial, find_unneeded_orphans pkgs orphans = Ok initial ∧ orphan ∈ initial.
Proof.
  intros Hpresent Hin Hnone.
  destruct (referenced_names_returns pkgs Hpresent) as [required Hreq].
  exists (orphans ∖ required). unfold find_unneeded_orphans. rewrite Hreq.
  split; [done|]. apply elem_of_difference. split; [done|].
  intros [pkg Hpkg]%(referenced_names_spec _ _ Hreq). by apply (Hnone pkg).
Qed.

(** The requirers, when they are known one by one. *)
Lemma what_requires_is pkgs orphan (requirers : gset string) :
  fields_present pkgs →
  (∀ pkg, pkg ∈ requirers ↔ hard_requires pkgs pkg orphan) →
  what_requires pkgs orphan = Ok requirers.
Proof.
  intros Hpresent Hreqs.
  destruct (what_requires_returns pkgs orphan Hpresent) as [required_by Hwr].
  rewrite Hwr. f_equal. apply set_eq. intros pkg.
  by rewrite (what_requires_spec _ _ _ Hwr), Hreqs.
Qed.

(** An orphan whose hard requirers are all orphans is [unneeded] in
    every result, and has no entry in [required]. *)
Lemma orphaned_requirers_unneeded pkgs orphans orphan outcome :
  classify_orphans get_maintainers iter pkgs orphans = Ok outcome →
  orphan ∈ orphans → orphaned_requirers pkgs orphans orphan →
  orphan ∈ outcome.1 ∧ outcome.2 !! orphan = None.
Proof.
  intros Hrun Hin Horph.
  destruct (classify_orphans_Ok _ _ iter_order _ _ _ Hrun) as (_ & _ & Hun & _ & Hdom).
  split; [by apply Hun|]. apply not_elem_of_dom. intros [_ Hmaint]%Hdom.
  by destruct (orphaned_not_maintained _ _ _ Horph).
Qed.

End classification_cases.

(** C2, as amended: an orphan of the index that is named in [optdepends]
    somewhere and in no [depends], [makedepends] or [checkdepends] is not
    in the first [unneeded] (the union of all dependencies has it), has an
    empty set of requirers, and is put into [unneeded] by its iteration of
    the loop, whatever was classified before.  When every orphan that some
    package names is in the index, the classifier returns, and the orphan
    is [unneeded], without an entry in [required], in the result.  When
    some orphan that a package names is not in the index, the loop stops
    with [KeyError] at an orphan of that kind, and nothing is classified. *)
Theorem optional_only_orphan_unneeded
    (get_maintainers : string → string → string → list string)
    (iter : gset string → list string)
    (pkgs : gmap string package) (orphans : gset string) (orphan : string) :
  iteration_order iter → fields_present pkgs →
  orphan ∈ orphans → is_Some (pkgs !! orphan) →
  (∃ pkg, optionally_requires pkgs pkg orphan) →
  (∀ pkg, ¬ hard_requires pkgs pkg orphan) →
  (∃ initial, find_unneeded_orphans pkgs orphans = Ok initial ∧ orphan ∉ initial)
  ∧ what_requires pkgs orphan = Ok ∅
  ∧ (∀ st, agrees get_maintainers pkgs (packages st) →
           ∃ st', classify_orphan get_maintainers iter orphans st orphan = Ok st'
                  ∧ unneeded st' = unneeded st ∪ {[orphan]}
                  ∧ required_orphans st' = required_orphans st)
  ∧ (∀ outcome, classify_orphans get_maintainers iter pkgs orphans = Ok outcome →
               orphan ∈ outcome.1 ∧ outcome.2 !! orphan = None)
  ∧ (orphans_indexed pkgs orphans →
     ∃ outcome, classify_orphans get_maintainers iter pkgs orphans = Ok outcome
                ∧ orphan ∈ outcome.1 ∧ outcome.2 !! orphan = None)
  ∧ (∀ absent pkg,
        absent ∈ orphans → references pkgs pkg absent → pkgs !! absent = None →
        ∃ missing, missing ∈ orphans ∧ pkgs !! missing = None
                   ∧ (∃ pkg', references pkgs pkg' missing)
                   ∧ classify_orphans get_maintainers iter pkgs orphans
                     = Raise (KeyError missing)).
Proof.
  intros Hiter Hpresent Hin [entry Hentry] [pkg Hopt] Hhard.
  assert (orphaned_requirers pkgs orphans orphan) as Horph.
  { intros requirer Hreq. by destruct (Hhard requirer). }
  split_and!.
  - apply (referenced_not_initial _ _ _ pkg Hpresent).
    destruct Hopt as (e & key & deps & He & Hkey & Hdeps & Hdep).
    exists e, key, deps. split_and!; [done| |done..].
    apply list_elem_of_singleton in Hkey as ->. unfold pkgfields.
    rewrite !elem_of_cons. tauto.
  - apply what_requires_is; [done|]. intros requirer. split.
    + by intros []%elem_of_empty.
    + intros Hreq. by destruct (Hhard requirer).
  - intros st Hag.
    pose proof (classify_orphan_step get_maintainers iter Hiter pkgs orphans st orphan
                  Hpresent Hag) as Hstep.
    rewrite Hentry in Hstep.
    destruct Hstep as (st' & Hst' & _ & [(_ & Hu & Hr)|(Hmaint & _)]).
    + by exists st'.
    + by destruct (orphaned_not_maintained _ _ _ Horph).
  - intros outcome Hrun. by eapply orphaned_requirers_unneeded.
  - intros Hindexed.
    destruct (classify_orphans_returns get_maintainers iter Hiter _ _ Hpresent Hindexed)
      as [outcome Hrun].
    exists outcome. split; [done|]. by eapply orphaned_requirers_unneeded.
  - intros absent requirer Habsent Href Hnone. by eapply classify_orphans_raises.
Qed.

(** C3, as amended: of two orphans of the index, [Y] needing [X], nothing
    naming [Y], and nothing but [Y] naming [X], the first [unneeded] has
    [Y] and not [X], and the requirers of [X] are [Y] alone, a subset of
    the orphans.  When every orphan that some package names is in the
    index, the classifier returns, and both are [unneeded] in the result.
    When some orphan that a package names is not in the index, the loop
    stops with [KeyError] at an orphan of that kind, and nothing is
    classified. *)
Theorem orphan_chain_unneeded
    (get_maintainers : string → string → string → list string)
    (iter : gset string → list string)
    (pkgs : gmap string package) (orphans : gset string) (X Y : string) :
  iteration_order iter → fields_present pkgs →
  X ∈ orphans → Y ∈ orphans → is_Some (pkgs !! X) →
  hard_requires pkgs Y X →
  (∀ pkg, ¬ references pkgs pkg Y) →
  (∀ pkg, references pkgs pkg X → pkg = Y) →
  (∃ initial, find_unneeded_orphans pkgs orphans = Ok initial
              ∧ Y ∈ initial ∧ X ∉ initial)
  ∧ what_requires pkgs X = Ok {[Y]}
  ∧ ({[Y]} : gset string) ⊆ orphans
  ∧ (∀ outcome, classify_orphans get_maintainers iter pkgs orphans = Ok outcome →
               X ∈ outcome.1 ∧ Y ∈ outcome.1)
  ∧ (orphans_indexed pkgs orphans →
     ∃ outcome, classify_orphans get_maintainers iter pkgs orphans = Ok outcome
                ∧ X ∈ outcome.1 ∧ Y ∈ outcome.1)
  ∧ (∀ absent pkg,
        absent ∈ orphans → references pkgs pkg absent → pkgs !! absent = None →
        ∃ missing, missing ∈ orphans ∧ pkgs !! missing = None
                   ∧ (∃ pkg', references pkgs pkg' missing)
                   ∧ classify_orphans get_maintainers iter pkgs orphans
                     = Raise (KeyError missing)).
Proof.
  intros Hiter Hpresent HX HY HXin HYX HnoY HonlyY. split_and!.
  - destruct (unreferenced_initial pkgs orphans Y Hpresent HY HnoY) as (initial & Hinit & HYin).
    exists initial. split_and!; [done..|].
    destruct (referenced_not_initial pkgs orphans X Y Hpresent) as (initial' & Hinit' & HXout).
    { by apply hard_requires_references. }
    congruence.
  - apply what_requires_is; [done|]. intros pkg. rewrite elem_of_singleton. split.
    + by intros ->.
    + intros Hpkg%hard_requires_references. by apply HonlyY.
  - by apply singleton_subseteq_l.
  - intros outcome Hrun. split.
    + eapply orphaned_requirers_unneeded; [done..|].
      intros pkg Hpkg%hard_requires_references. by rewrite (HonlyY pkg Hpkg).
    + eapply orphaned_requirers_unneeded; [done..|].
      intros pkg Hpkg%hard_requires_references. by destruct (HnoY pkg).
  - intros Hindexed.
    destruct (classify_orphans_returns get_maintainers iter Hiter _ _ Hpresent Hindexed)
      as [outcome Hrun].
    exists outcome. split; [done|]. split.
    + eapply orphaned_requirers_unneeded; [done..|].
      intros pkg Hpkg%hard_requires_references. by rewrite (HonlyY pkg Hpkg).
    + eapply orphaned_requirers_unneeded; [done..|].
      intros pkg Hpkg%hard_requires_references. by destruct (HnoY pkg).
  - intros absent requirer Habsent Href Hnone. by eapply classify_orphans_raises.
Qed.

(** C4, as amended: an orphan that is not in the index is passed over
    when no package names it in any field: it is in the first [unneeded],
    never enters the loop, has no requirers, and is [unneeded], without an
    entry in [required], in the result.  When some package names it, the
    loop stops with [KeyError] at an orphan of that kind. *)
Theorem unindexed_orphan
    (get_maintainers : string → string → string → list string)
    (iter : gset string → list string)
    (pkgs : gmap string package) (orphans : gset string) (orphan : string) :
  iteration_order iter → fields_present pkgs →
  orphan ∈ orphans → pkgs !! orphan = None →
  ((∀ pkg, ¬ references pkgs pkg orphan) →
   (∃ initial, find_unneeded_orphans pkgs orphans = Ok initial
               ∧ orphan ∈ initial ∧ orphan ∉ iter (orphans ∖ initial))
   ∧ what_requires pkgs orphan = Ok ∅
   ∧ (∀ outcome, classify_orphans get_maintainers iter pkgs orphans = Ok outcome →
                orphan ∈ outcome.1 ∧ outcome.2 !! orphan = None))
  ∧ ((∃ pkg, references pkgs pkg orphan) →
     ∃ missing, missing ∈ orphans ∧ pkgs !! missing = None
                ∧ (∃ pkg, references pkgs pkg missing)
                ∧ classify_orphans get_maintainers iter pkgs orphans
                  = Raise (KeyError missing)).
Proof.
  intros Hiter Hpresent Hin Hnone. split.
  - intros Hunref.
    assert (orphaned_requirers pkgs orphans orphan) as Horph.
    { intros pkg Hpkg%hard_requires_references. by destruct (Hunref pkg). }
    split_and!.
    + destruct (unreferenced_initial pkgs orphans orphan Hpresent Hin Hunref)
        as (initial & Hinit & Hinitial).
      exists initial. split_and!; [done..|].
      rewrite (elem_of_iter iter Hiter), elem_of_difference. tauto.
    + apply what_requires_is; [done|]. intros pkg. split.
      * by intros []%elem_of_empty.
      * intros Hpkg%hard_requires_references. by destruct (Hunref pkg).
    + intros outcome Hrun. by eapply orphaned_requirers_unneeded.
  - intros [pkg Hpkg]. by eapply classify_orphans_raises.
Qed.


(** * The claims on the sample index *)

Lemma demo_present : fields_present demo_pkgs.
Proof. by destruct (classify_orphans_Ok _ _ iteration_order_elements _ _ _ demo_run). Qed.

Lemma demo_indexed : orphans_indexed demo_pkgs demo_orphans.
Proof.
  by destruct (classify_orphans_Ok _ _ iteration_order_elements _ _ _ demo_run)
    as (_ & ? & _).
Qed.

Lemma optional_only_orphan_unneeded_demo :
  "o" ∈ demo_orphans ∧ is_Some (demo_pkgs !! "o")
  ∧ optionally_requires demo_pkgs "a" "o"
  ∧ (∀ pkg, ¬ hard_requires demo_pkgs pkg "o")
  ∧ orphans_indexed demo_pkgs demo_orphans
  ∧ what_requires demo_pkgs "o" = Ok ∅
  ∧ ∃ outcome,
      classify_orphans demo_maintainers elements demo_pkgs demo_orphans = Ok outcome
      ∧ "o" ∈ outcome.1 ∧ outcome.2 !! "o" = None.
Proof.
  assert ("o" ∈ demo_orphans) as Hin by by_evaluation.
  assert (is_Some (demo_pkgs !! "o")) as Hindexed by by_evaluation.
  assert (optionally_requires demo_pkgs "a" "o") as Hopt.
  { apply (naming_spec ["optdepends"] demo_pkgs "o" {["a"]});
      [vm_compute; reflexivity|by apply elem_of_singleton]. }
  assert (∀ pkg, ¬ hard_requires demo_pkgs pkg "o") as Hhard.
  { intros pkg Hpkg. apply (naming_spec deptypes demo_pkgs "o" ∅) in Hpkg;
      [by apply elem_of_empty in Hpkg|vm_compute; reflexivity]. }
  destruct (optional_only_orphan_unneeded demo_maintainers elements demo_pkgs
              demo_orphans "o" iteration_order_elements demo_present Hin Hindexed
              (ex_intro _ "a" Hopt) Hhard) as (_ & Hreq & _ & _ & Hreturns & _).
  split_and!; [done..|exact demo_indexed|done|].
  exact (Hreturns demo_indexed).
Defined.

Lemma orphan_chain_unneeded_demo :
  hard_requires demo_pkgs "y" "x"
  ∧ (∀ pkg, ¬ references demo_pkgs pkg "y")
  ∧ (∀ pkg, references demo_pkgs pkg "x" → pkg = "y")
  ∧ orphans_indexed demo_pkgs demo_orphans
  ∧ what_requires demo_pkgs "x" = Ok {["y"]}
  ∧ ∃ outcome,
      classify_orphans demo_maintainers elements demo_pkgs demo_orphans = Ok outcome
      ∧ "x" ∈ outcome.1 ∧ "y" ∈ outcome.1.
Proof.
  assert (hard_requires demo_pkgs "y" "x") as Hyx.
  { apply (naming_spec deptypes demo_pkgs "x" {["y"]});
      [vm_compute; reflexivity|by apply elem_of_singleton]. }
  assert (∀ pkg, ¬ references demo_pkgs pkg "y") as Hy.
  { intros pkg Hpkg. apply (naming_spec pkgfields demo_pkgs "y" ∅) in Hpkg;
      [by apply elem_of_empty in Hpkg|vm_compute; reflexivity]. }
  assert (∀ pkg, references demo_pkgs pkg "x" → pkg = "y") as Hx.
  { intros pkg Hpkg. apply (naming_spec pkgfields demo_pkgs "x" {["y"]}) in Hpkg;
      [by apply elem_of_singleton in Hpkg|vm_compute; reflexivity]. }
  destruct (orphan_chain_unneeded demo_maintainers elements demo_pkgs demo_orphans
              "x" "y" iteration_order_elements demo_present)
    as (_ & Hreq & _ & _ & Hreturns & _); [by_evaluation..|done|done|done|].
  split_and!; [done..|exact demo_indexed|done|].
  exact (Hreturns demo_indexed).
Defined.

Lemma unindexed_orphan_demo :
  "z" ∈ demo_orphans ∧ demo_pkgs !! "z" = None
  ∧ (∀ pkg, ¬ references demo_pkgs pkg "z")
  ∧ what_requires demo_pkgs "z" = Ok ∅
  ∧ (∃ outcome,
       classify_orphans demo_maintainers elements demo_pkgs demo_orphans = Ok outcome
       ∧ "z" ∈ outcome.1 ∧ outcome.2 !! "z" = None)
  ∧ "b" ∈ dangling_orphans ∧ dangling_pkgs !! "b" = None
  ∧ references dangling_pkgs "a" "b"
  ∧ ∃ missing,
      classify_orphans demo_maintainers elements dangling_pkgs dangling_orphans
      = Raise (KeyError missing).
Proof.
  assert ("z" ∈ demo_orphans) as Hz by by_evaluation.
  assert (demo_pkgs !! "z" = None) as Hnone by by_evaluation.
  assert (∀ pkg, ¬ references demo_pkgs pkg "z") as Hunref.
  { intros pkg Hpkg. apply (naming_spec pkgfields demo_pkgs "z" ∅) in Hpkg;
      [by apply elem_of_empty in Hpkg|vm_compute; reflexivity]. }
  destruct (unindexed_orphan demo_maintainers elements demo_pkgs demo_orphans "z"
              iteration_order_elements demo_present Hz Hnone) as [Hpassed _].
  destruct (Hpassed Hunref) as (_ & Hreq & Hresult).
  assert ("b" ∈ dangling_orphans) as Hb by by_evaluation.
  assert (dangling_pkgs !! "b" = None) as Hbnone by by_evaluation.
  assert (references dangling_pkgs "a" "b") as Href.
  { apply (naming_spec pkgfields dangling_pkgs "b" {["a"]});
      [vm_compute; reflexivity|by apply elem_of_singleton]. }
  destruct (unindexed_orphan demo_maintainers elements dangling_pkgs dangling_orphans
              "b" iteration_order_elements dangling_present Hb Hbnone) as [_ Hstops].
  destruct (Hstops (ex_intro _ "a" Href)) as (missing & _ & _ & _ & Hraise).
  split_and!; try done; [|by exists missing].
  eexists. split; [exact demo_run|]. exact (Hresult _ demo_run).
Defined.

(** C4, as stated, fails on the orphan [b] that [a] needs and that no
    repository has: [main] looks it up and stops with [KeyError]. *)
Lemma unindexed_referenced_orphan_raises :
  fields_present dangling_pkgs
  ∧ "b" ∈ dangling_orphans ∧ dangling_pkgs !! "b" = None
  ∧ what_requires dangling_pkgs "b" = Ok {["a"]}
  ∧ classify_orphans demo_maintainers elements dangling_pkgs dangling_orphans
    = Raise (KeyError "b").
Proof.
  split_and!; [exact dangling_present|by_evaluation..| |exact dangling_run];
    vm_compute; reflexivity.
Qed.


Lemma plain_package_present pkgs pkg depends makedepends optdepends checkdepends :
  fields_present pkgs →
  fields_present (<[pkg := plain_package depends makedepends optdepends checkdepends]> pkgs).
Proof.
  intros Hpkgs name entry key [[_ <-]|[_ Hentry]]%lookup_insert_Some Hkey;
    [|by eapply Hpkgs].
  revert Hkey. unfold pkgfields. rewrite !elem_of_cons, elem_of_nil.
  intros [->|[->|[->|[->|[]]]]]; by eexists.
Qed.

Lemma empty_present : fields_present ∅.
Proof. intros pkg entry key Hentry. by rewrite lookup_empty in Hentry. Qed.

(** C2, as stated, fails when some other orphan is needed and in no
    repository: [o] is an orphan of the index that is named as an option
    only, and [main] stops with [KeyError] at [b], under either order,
    before it prints anything; no result has [o]. *)
Lemma optional_only_orphan_unclassified :
  fields_present optional_pkgs
  ∧ "o" ∈ optional_orphans ∧ is_Some (optional_pkgs !! "o")
  ∧ optionally_requires optional_pkgs "a" "o"
  ∧ (∀ pkg, ¬ hard_requires optional_pkgs pkg "o")
  ∧ classify_orphans demo_maintainers elements optional_pkgs optional_orphans
    = Raise (KeyError "b")
  ∧ classify_orphans demo_maintainers (λ X, reverse (elements X))
      optional_pkgs optional_orphans
    = Raise (KeyError "b")
  ∧ ¬ ∃ outcome,
        classify_orphans demo_maintainers elements optional_pkgs optional_orphans
        = Ok outcome
        ∧ "o" ∈ outcome.1.
Proof.
  assert (classify_orphans demo_maintainers elements optional_pkgs optional_orphans
          = Raise (KeyError "b")) as Hrun by (vm_compute; reflexivity).
  split_and!.
  - do 2 apply plain_package_present. exact empty_present.
  - by_evaluation.
  - by_evaluation.
  - apply (naming_spec ["optdepends"] optional_pkgs "o" {["a"]});
      [vm_compute; reflexivity|by apply elem_of_singleton].
  - intros pkg Hpkg. apply (naming_spec deptypes optional_pkgs "o" ∅) in Hpkg;
      [by apply elem_of_empty in Hpkg|vm_compute; reflexivity].
  - exact Hrun.
  - vm_compute. reflexivity.
  - intros (outcome & Hok & _). rewrite Hrun in Hok. discriminate Hok.
Qed.

(** C3, as stated, fails in the same way: [y] needs [x], nothing names
    [y], nothing but [y] names [x], and [main] stops with [KeyError] at
    [b], under either order; no result has [x] and [y]. *)
Lemma orphan_chain_unclassified :
  fields_present chain_pkgs
  ∧ "x" ∈ chain_orphans ∧ "y" ∈ chain_orphans
  ∧ is_Some (chain_pkgs !! "x") ∧ is_Some (chain_pkgs !! "y")
  ∧ hard_requires chain_pkgs "y" "x"
  ∧ (∀ pkg, ¬ references chain_pkgs pkg "y")
  ∧ (∀ pkg, references chain_pkgs pkg "x" → pkg = "y")
  ∧ classify_orphans demo_maintainers elements chain_pkgs chain_orphans
    = Raise (KeyError "b")
  ∧ classify_orphans demo_maintainers (λ X, reverse (elements X))
      chain_pkgs chain_orphans
    = Raise (KeyError "b")
  ∧ ¬ ∃ outcome,
        classify_orphans demo_maintainers elements chain_pkgs chain_orphans
        = Ok outcome
        ∧ "x" ∈ outcome.1 ∧ "y" ∈ outcome.1.
Proof.
  assert (classify_orphans demo_maintainers elements chain_pkgs chain_orphans
          = Raise (KeyError "b")) as Hrun by (vm_compute; reflexivity).
  split_and!.
  - do 3 apply plain_package_present. exact empty_present.
  - by_evaluation.
  - by_evaluation.
  - by_evaluation.
  - by_evaluation.
  - apply (naming_spec deptypes chain_pkgs "x" {["y"]});
      [vm_compute; reflexivity|by apply elem_of_singleton].
  - intros pkg Hpkg. apply (naming_spec pkgfields chain_pkgs "y" ∅) in Hpkg;
      [by apply elem_of_empty in Hpkg|vm_compute; reflexivity].
  - intros pkg Hpkg. apply (naming_spec pkgfields chain_pkgs "x" {["y"]}) in Hpkg;
      [by apply elem_of_singleton in Hpkg|vm_compute; reflexivity].
  - exact Hrun.
  - vm_compute. reflexivity.
  - intros (outcome & Hok & _). rewrite Hrun in Hok. discriminate Hok.
Qed.

